(** * DAWS event reporters: a shallow embedding of [dawsReporter.cpp]

    The file follows [src/dawsReporter.h] and [src/dawsReporter.cpp].
    A [Reporter] owns two report records; the class keeps a chain of all
    reporters, a queue of pointers to report records and two incident
    counters.  Objects live in a heap indexed by address, C++ pointers are
    [option addr] (with [None] for [nullptr]) and every member function
    becomes a function on the explicit program state.  A result of [None]
    stands for an access through a pointer that designates no reporter. *)

From stdpp Require Import base option list gmap.
From Stdlib Require Import NArith ZArith Lia.

Local Open Scope N_scope.

(** ** Enumerations of [dawsReporter.h] *)

(** [enum ReporterType : char] *)
Inductive ReporterType : Type :=
  | SERVO_REP | MOTOR_REP | VL53_REP | NFC_REP | NTAG_REP | DEP_REP
  | ODO_REP | RA_REP | ACC_REP | QDEC_REP | AUTO_REP | BLE_REP.

(** [enum EventType : byte], enumerators in declaration order *)
Inductive EventType : Type :=
  | REPORT_OVERRUN
  | LOCO_STOP
  | VL53_RANGE_CLOSE | VL53_RANGE_NORMAL | VL53_OUT_OF_RANGE | VL53_ERR
  | NTAG_NDEF | NTAG_NONDEF
  | MIFARE_C1K_FOUND | MIFARE_DEP_FOUND | MIFARE_DEP_MSG | MIFARE_DEP_PASSIVE
  | NFC_OTHER_FOUND | NFC_TAG_TYPE_UNKNOWN
  | RA_DISCOVERED | RA_STATE_CHANGE | RA_CONNECTED | RA_DISCONNECTED
  | BLE_SCAN_START | BLE_SCAN_DONE
  | BLE_PEER_FOUND | BLE_CONNECTED | BLE_SERVICES_AVAIL | BLE_CONNECT_FAIL
  | BLE_DISCONNECTED
  | ACC_STATE_CHANGE | ROTQ_ROT | ROTQ_ERR
  | SET_AUTO.

(** The value of an enumerator: no initialiser is given, so they count
    from 0.  This is the integer stored by [_overRunRep.info = repType]. *)
Definition EventType_value (e : EventType) : Z :=
  match e with
  | REPORT_OVERRUN => 0
  | LOCO_STOP => 1
  | VL53_RANGE_CLOSE => 2 | VL53_RANGE_NORMAL => 3
  | VL53_OUT_OF_RANGE => 4 | VL53_ERR => 5
  | NTAG_NDEF => 6 | NTAG_NONDEF => 7
  | MIFARE_C1K_FOUND => 8 | MIFARE_DEP_FOUND => 9
  | MIFARE_DEP_MSG => 10 | MIFARE_DEP_PASSIVE => 11
  | NFC_OTHER_FOUND => 12 | NFC_TAG_TYPE_UNKNOWN => 13
  | RA_DISCOVERED => 14 | RA_STATE_CHANGE => 15
  | RA_CONNECTED => 16 | RA_DISCONNECTED => 17
  | BLE_SCAN_START => 18 | BLE_SCAN_DONE => 19
  | BLE_PEER_FOUND => 20 | BLE_CONNECTED => 21
  | BLE_SERVICES_AVAIL => 22 | BLE_CONNECT_FAIL => 23
  | BLE_DISCONNECTED => 24
  | ACC_STATE_CHANGE => 25 | ROTQ_ROT => 26 | ROTQ_ERR => 27
  | SET_AUTO => 28
  end%Z.

(** ** Records and objects *)

(** The address of a [Reporter] object; [Reporter*] is [option addr]. *)
Definition addr := nat.

(** [report_t].  [unsigned long] time stamps are naturals ([N]), [int]
    information is an integer. *)
Record report_t : Type := mk_report {
  repType : EventType;
  source : option addr;
  timeStampIn : N;
  timeStampOut : N;
  info : Z
}.

(** Modelled from the spec: the class declaration in [dawsReporter.h] lists
    neither [_lastRep] nor [_overRunRep], which the member functions of
    [dawsReporter.cpp] use as [report_t] members ([rp = &_lastRep],
    [rp = &_overRunRep] with [report_t* rp]); they are the spec's
    "current record" and "overrun record" slots of a producer. *)
Record Reporter : Type := mk_Reporter {
  _nextReporter : option addr;
  _id : N;
  _lastRep : report_t;
  _overRunRep : report_t
}.

(** A [report_t*] that points into a reporter: the owner and the member. *)
Inductive slot : Type := LastRep | OverRunRep.

Definition report_ptr : Type := addr * slot.

Global Instance slot_eq_dec : EqDecision slot.
Proof. solve_decision. Defined.

Global Instance EventType_eq_dec : EqDecision EventType.
Proof. solve_decision. Defined.

Global Instance report_t_eq_dec : EqDecision report_t.
Proof. solve_decision. Defined.

Global Instance Reporter_eq_dec : EqDecision Reporter.
Proof. solve_decision. Defined.

(** The static members of the class together with the heap of live
    reporters.  [_overRunCount] is defined in [dawsReporter.cpp] next to
    [_queueFullCount], both as [volatile uint16_t]. *)
Record State : Type := mk_State {
  heap : gmap addr Reporter;
  _lastInstantiated : option addr;
  _firstReporter : option addr;
  _lastId : N;
  _reportQueue : list report_ptr;
  _overRunCount : N;
  _queueFullCount : N
}.

(** Static storage is zero-initialised; no reporter lives yet. *)
Definition init : State :=
  {| heap := ∅;
     _lastInstantiated := None;
     _firstReporter := None;
     _lastId := 0;
     _reportQueue := [];
     _overRunCount := 0;
     _queueFullCount := 0 |}.

(** ** Field assignments *)

Definition set_repType (v : EventType) (r : report_t) : report_t :=
  mk_report v (source r) (timeStampIn r) (timeStampOut r) (info r).
Definition set_source (v : option addr) (r : report_t) : report_t :=
  mk_report (repType r) v (timeStampIn r) (timeStampOut r) (info r).
Definition set_timeStampIn (v : N) (r : report_t) : report_t :=
  mk_report (repType r) (source r) v (timeStampOut r) (info r).
Definition set_timeStampOut (v : N) (r : report_t) : report_t :=
  mk_report (repType r) (source r) (timeStampIn r) v (info r).
Definition set_info (v : Z) (r : report_t) : report_t :=
  mk_report (repType r) (source r) (timeStampIn r) (timeStampOut r) v.

Definition set_nextReporter (v : option addr) (r : Reporter) : Reporter :=
  mk_Reporter v (_id r) (_lastRep r) (_overRunRep r).
Definition set_id (v : N) (r : Reporter) : Reporter :=
  mk_Reporter (_nextReporter r) v (_lastRep r) (_overRunRep r).
Definition set_lastRep (v : report_t) (r : Reporter) : Reporter :=
  mk_Reporter (_nextReporter r) (_id r) v (_overRunRep r).
Definition set_overRunRep (v : report_t) (r : Reporter) : Reporter :=
  mk_Reporter (_nextReporter r) (_id r) (_lastRep r) v.

(** Reading and writing through a [report_t*] into its owner. *)
Definition get_slot (sl : slot) (r : Reporter) : report_t :=
  match sl with LastRep => _lastRep r | OverRunRep => _overRunRep r end.
Definition set_slot (sl : slot) (v : report_t) (r : Reporter) : Reporter :=
  match sl with LastRep => set_lastRep v r | OverRunRep => set_overRunRep v r end.

Definition set_heap (h : gmap addr Reporter) (s : State) : State :=
  mk_State h (_lastInstantiated s) (_firstReporter s) (_lastId s)
           (_reportQueue s) (_overRunCount s) (_queueFullCount s).
Definition set_lastInstantiated (v : option addr) (s : State) : State :=
  mk_State (heap s) v (_firstReporter s) (_lastId s)
           (_reportQueue s) (_overRunCount s) (_queueFullCount s).
Definition set_firstReporter (v : option addr) (s : State) : State :=
  mk_State (heap s) (_lastInstantiated s) v (_lastId s)
           (_reportQueue s) (_overRunCount s) (_queueFullCount s).
Definition set_lastId (v : N) (s : State) : State :=
  mk_State (heap s) (_lastInstantiated s) (_firstReporter s) v
           (_reportQueue s) (_overRunCount s) (_queueFullCount s).
Definition set_reportQueue (v : list report_ptr) (s : State) : State :=
  mk_State (heap s) (_lastInstantiated s) (_firstReporter s) (_lastId s)
           v (_overRunCount s) (_queueFullCount s).
Definition set_overRunCount (v : N) (s : State) : State :=
  mk_State (heap s) (_lastInstantiated s) (_firstReporter s) (_lastId s)
           (_reportQueue s) v (_queueFullCount s).
Definition set_queueFullCount (v : N) (s : State) : State :=
  mk_State (heap s) (_lastInstantiated s) (_firstReporter s) (_lastId s)
           (_reportQueue s) (_overRunCount s) v.

(** ** Machine arithmetic *)

(** [++] on a [byte] and on a [uint16_t] wraps around. *)
Definition incr_byte (n : N) : N := (n + 1) mod 2 ^ 8.
Definition incr_uint16 (n : N) : N := (n + 1) mod 2 ^ 16.

(** ** The report queue: [rtos::Queue<report_t, 16>]

    The queue holds at most 16 pointers and hands them out in the order in
    which they were put.  [try_put] never waits.  [try_get_for] is taken at
    the instant it returns: a pointer is handed out when one is there, and
    the call reports failure when the wait has expired on an empty queue;
    how long the caller was suspended is not part of the state.  The wait
    itself, with what the producers do meanwhile, is [tryGetReport_timed]
    below. *)
Module Queue.

Definition capacity : nat := 16.

Definition try_put (rp : report_ptr) (q : list report_ptr)
  : option (list report_ptr) :=
  if decide (length q < capacity)%nat then Some (q ++ [rp]) else None.

Definition try_get_for (waitTime : N) (q : list report_ptr)
  : option (report_ptr * list report_ptr) :=
  match q with
  | [] => None
  | rp :: q' => Some (rp, q')
  end.

End Queue.

(** ** Member functions of [Reporter] *)

(** [void Reporter::_link(Reporter* newReporter)] *)
Definition _link (this : addr) (newReporter : addr) (s : State) : option State :=
  me ← heap s !! this;
  Some (set_heap (<[this := set_nextReporter (Some newReporter) me]> (heap s)) s).

(** [Reporter::Reporter(ReporterType type)].  [this] is the address of the
    storage and [raw] what that storage holds when the constructor starts:
    members the constructor does not assign keep the value found there.
    A reporter is constructed once, in storage no live reporter occupies. *)
Definition Reporter_ctor (this : addr) (raw : Reporter) (type : ReporterType)
    (s : State) : option State :=
  if decide (is_Some (heap s !! this)) then None else
  let s := set_lastId (incr_byte (_lastId s)) s in
  let me := set_id (_lastId s) raw in
  s ← match _firstReporter s with
      | None => Some (set_firstReporter (Some this) s)
      | Some _ => last ← _lastInstantiated s; _link last this s
      end;
  let s := set_lastInstantiated (Some this) s in
  let me := set_nextReporter None me in
  let me := set_lastRep (set_timeStampIn 0 (_lastRep me)) me in
  let me := set_lastRep (set_timeStampOut 0 (_lastRep me)) me in
  Some (set_heap (<[this := me]> (heap s)) s).

(** [Reporter::Reporter(ReporterType type, byte id)] *)
Definition Reporter_ctor_id (this : addr) (raw : Reporter) (type : ReporterType)
    (id : N) (s : State) : option State :=
  if decide (is_Some (heap s !! this)) then None else
  let me := set_id id raw in
  s ← match _firstReporter s with
      | None => Some (set_firstReporter (Some this) s)
      | Some _ => last ← _lastInstantiated s; _link last this s
      end;
  let s := set_lastInstantiated (Some this) s in
  let me := set_nextReporter None me in
  Some (set_heap (<[this := me]> (heap s)) s).

(** [Reporter* Reporter::getNextReporter()] *)
Definition getNextReporter (this : addr) (s : State) : option (option addr) :=
  me ← heap s !! this; Some (_nextReporter me).

(** [Reporter* Reporter::getFirstReporter()] (static) *)
Definition getFirstReporter (s : State) : option addr := _firstReporter s.

(** [byte Reporter::getId()] *)
Definition getId (this : addr) (s : State) : option N :=
  me ← heap s !! this; Some (_id me).

(** [void Reporter::queueReport(EventType repType, int info)].  [micros] is
    the value the call of [micros()] returns. *)
Definition queueReport (this : addr) (repType' : EventType) (info' : Z)
    (micros : N) (s : State) : option State :=
  me ← heap s !! this;
  let overRun := 0 <? timeStampIn (_lastRep me) in
  let rp := if overRun then OverRunRep else LastRep in
  let '(me, s) :=
    if overRun then
      let me := set_overRunRep (set_repType REPORT_OVERRUN (_overRunRep me)) me in
      let me := set_overRunRep (set_info (EventType_value repType') (_overRunRep me)) me in
      (me, set_overRunCount (incr_uint16 (_overRunCount s)) s)
    else
      let me := set_lastRep (set_repType repType' (_lastRep me)) me in
      let me := set_lastRep (set_info info' (_lastRep me)) me in
      (me, s) in
  let me := set_slot rp (set_source (Some this) (get_slot rp me)) me in
  let me := set_slot rp (set_timeStampIn micros (get_slot rp me)) me in
  let me := set_slot rp (set_timeStampOut 0 (get_slot rp me)) me in
  let s := set_heap (<[this := me]> (heap s)) s in
  match Queue.try_put (this, rp) (_reportQueue s) with
  | Some q => Some (set_reportQueue q s)
  | None => Some (set_queueFullCount (incr_uint16 (_queueFullCount s)) s)
  end.

(** [bool Reporter::tryGetReport(report_t* rdp, duration_u32 waitTime)]
    (static).  [rdp] is the content of the caller's structure, which lies
    outside every reporter; the result carries its content afterwards. *)
Definition tryGetReport (rdp : report_t) (waitTime : N) (micros : N) (s : State)
    : option (bool * report_t * State) :=
  match Queue.try_get_for waitTime (_reportQueue s) with
  | Some (rsp, q) =>
      let s := set_reportQueue q s in
      owner ← heap s !! rsp.1;
      let src := get_slot rsp.2 owner in
      let rdp := set_repType (repType src) rdp in
      let rdp := set_source (source src) rdp in
      let rdp := set_info (info src) rdp in
      let rdp := set_timeStampIn (timeStampIn src) rdp in
      let rdp := set_timeStampOut micros rdp in
      let src := set_timeStampOut (timeStampOut rdp) src in
      let src := set_timeStampIn 0 src in
      Some (true, rdp, set_heap (<[rsp.1 := set_slot rsp.2 src owner]> (heap s)) s)
  | None => Some (false, rdp, s)
  end.


(** ** Closed forms used in the statements *)

(** The record [queueReport] leaves in the slot it picked. *)
Definition fresh_record (this : addr) (k : EventType) (i : Z) (t : N) : report_t :=
  mk_report k (Some this) t 0 i.
Definition overrun_record (this : addr) (k : EventType) (t : N) : report_t :=
  mk_report REPORT_OVERRUN (Some this) t 0 (EventType_value k).

(** [overRun] of [queueReport]: the last report is unacknowledged. *)
Definition unacknowledged (me : Reporter) : bool := 0 <? timeStampIn (_lastRep me).

(** The slot [rp] of [queueReport] points to. *)
Definition chosen (me : Reporter) : slot :=
  if unacknowledged me then OverRunRep else LastRep.

(** [try_put] fails: the queue holds [capacity] pointers. *)
Definition full (q : list report_ptr) : bool :=
  bool_decide (Queue.capacity ≤ length q)%nat.

(** The copy [tryGetReport] hands to the caller and the record it leaves
    behind. *)
Definition copied (src : report_t) (t : N) : report_t :=
  mk_report (repType src) (source src) (timeStampIn src) t (info src).
Definition released (src : report_t) (t : N) : report_t :=
  mk_report (repType src) (source src) 0 t (info src).

(** ** Invariants of the queue and of the chain *)

(** The producer a queued pointer names, read back from the record it
    points to. *)
Definition source_of (s : State) (rp : report_ptr) : option addr :=
  owner ← heap s !! rp.1; source (get_slot rp.2 owner).

(** Every queued pointer points into a live reporter whose record names
    that reporter as its source, and the queue respects its capacity. *)
Definition queue_ok (s : State) : Prop :=
  Forall (λ rp, source_of s rp = Some rp.1) (_reportQueue s) ∧
  (length (_reportQueue s) ≤ Queue.capacity)%nat.

(** The chain of reporters is the list [ps]: it starts at
    [_firstReporter], ends at [_lastInstantiated] and each member's
    [getNextReporter] is the member that follows it. *)
Definition registry (s : State) (ps : list addr) : Prop :=
  NoDup ps ∧
  _firstReporter s = head ps ∧
  _lastInstantiated s = last ps ∧
  ∀ (i : nat) (p : addr), ps !! i = Some p → getNextReporter p s = Some (ps !! S i).

(** The loop [for (p = first; p != nullptr; p = p->getNextReporter())] of a
    client, collecting the reporters it visits; [fuel] bounds the number of
    reporters visited. *)
Fixpoint traverse (fuel : nat) (p : option addr) (s : State) : option (list addr) :=
  match p with
  | None => Some []
  | Some a =>
      match fuel with
      | O => None
      | S fuel =>
          next ← getNextReporter a s;
          rest ← traverse fuel next s;
          Some (a :: rest)
      end
  end.

(** ** Runs of the program *)

(** A call of one of the four state-changing operations, with the values
    the environment supplies ([raw] storage, [micros()]). *)
Inductive call : Type :=
  | New (this : addr) (raw : Reporter) (type : ReporterType)
  | NewId (this : addr) (raw : Reporter) (type : ReporterType) (id : N)
  | Submit (this : addr) (repType' : EventType) (info' : Z) (micros : N)
  | Retrieve (rdp : report_t) (waitTime : N) (micros : N).

(** What a call did to the queue: the pointer it put, or the pointer it got
    together with the report copied to the caller. *)
Inductive event : Type :=
  | Put (rp : report_ptr)
  | Got (rp : report_ptr) (r : report_t).

Definition puts (l : list event) : list report_ptr :=
  omap (λ e, match e with Put rp => Some rp | Got _ _ => None end) l.
Definition gots (l : list event) : list report_ptr :=
  omap (λ e, match e with Got rp _ => Some rp | Put _ => None end) l.
Definition reports (l : list event) : list report_t :=
  omap (λ e, match e with Got _ r => Some r | Put _ => None end) l.

Definition step (c : call) (s : State) : option (State * list event) :=
  match c with
  | New this raw type => s' ← Reporter_ctor this raw type s; Some (s', [])
  | NewId this raw type id => s' ← Reporter_ctor_id this raw type id s; Some (s', [])
  | Submit this k i t =>
      me ← heap s !! this;
      s' ← queueReport this k i t s;
      Some (s', if full (_reportQueue s) then [] else [Put (this, chosen me)])
  | Retrieve rdp w t =>
      '(found, r, s') ← tryGetReport rdp w t s;
      Some (s', match found, head (_reportQueue s) with
                | true, Some rp => [Got rp r]
                | _, _ => []
                end)
  end.

Fixpoint run (cs : list call) (s : State) : option (State * list event) :=
  match cs with
  | [] => Some (s, [])
  | c :: cs =>
      '(s1, e1) ← step c s;
      '(s2, e2) ← run cs s1;
      Some (s2, e1 ++ e2)
  end.

(** The reporters a list of calls constructs, in order. *)
Definition constructed (cs : list call) : list addr :=
  omap (λ c, match c with
             | New this _ _ | NewId this _ _ _ => Some this
             | _ => None
             end) cs.

(** The conditions on which the two counters are incremented. *)
Definition overruns (c : call) (s : State) : bool :=
  match c with
  | Submit this _ _ _ =>
      match heap s !! this with
      | Some me => unacknowledged me
      | None => false
      end
  | _ => false
  end.
Definition overflows (c : call) (s : State) : bool :=
  match c with
  | Submit _ _ _ _ => full (_reportQueue s)
  | _ => false
  end.

(** The statements of both constructors that put [this] at the end of the
    chain (lines 76-86 and 109-119). *)
Definition enchain (this : addr) (s : State) : option State :=
  s ← match _firstReporter s with
      | None => Some (set_firstReporter (Some this) s)
      | Some _ => last ← _lastInstantiated s; _link last this s
      end;
  Some (set_lastInstantiated (Some this) s).

(** A list of calls a program can make when the live reporters are [live]:
    a constructor runs in storage that holds no live reporter and a
    submission comes from a live reporter. *)
Fixpoint calls_ok (live : list addr) (cs : list call) : Prop :=
  match cs with
  | [] => True
  | c :: cs =>
      match c with
      | New this _ _ | NewId this _ _ _ =>
          (this ∉ live) ∧ calls_ok (live ++ [this]) cs
      | Submit this _ _ _ => this ∈ live ∧ calls_ok live cs
      | Retrieve _ _ _ => calls_ok live cs
      end
  end.

(** The invariant of every state a program reaches: the chain holds
    exactly the live reporters and the queue is in order. *)
Definition inv (s : State) (ps : list addr) : Prop :=
  registry s ps ∧ queue_ok s ∧ ∀ p, is_Some (heap s !! p) → p ∈ ps.

(** A reporter to construct: where, on what storage, of which type and,
    for the deprecated constructor, with which identifier. *)
Definition construction : Type := addr * Reporter * ReporterType * option N.

Definition built (c : construction) : addr := c.1.1.1.

Definition construct (c : construction) : call :=
  match c with
  | (this, raw, type, None) => New this raw type
  | (this, raw, type, Some id) => NewId this raw type id
  end.

(** ** Sample data for closed instances *)

(** Zero-initialised storage, as of a reporter with static storage
    duration, and storage with values left over from an earlier use. *)
Definition zeroed : Reporter :=
  mk_Reporter None 0 (mk_report REPORT_OVERRUN None 0 0 0)
                     (mk_report REPORT_OVERRUN None 0 0 0).
Definition stale : Reporter :=
  mk_Reporter (Some 99%nat) 77 (mk_report SET_AUTO (Some 5%nat) 7 8 9)
                               (mk_report ROTQ_ERR None 11 12 13).

(** The state a list of calls leads to from the initial state. *)
Definition state_after (cs : list call) : State :=
  match run cs init with
  | Some (s, _) => s
  | None => init
  end.

(** Two reporters that submit three reports, the second of reporter 10
    before its first is retrieved, and a consumer that then takes them. *)
Definition sample_calls : list call :=
  [ New 10%nat stale SERVO_REP;
    New 20%nat zeroed VL53_REP;
    Submit 10%nat LOCO_STOP 42 100;
    Submit 20%nat VL53_RANGE_CLOSE 7 150;
    Submit 10%nat VL53_ERR 9 200;
    Retrieve (_lastRep zeroed) 0 300;
    Retrieve (_lastRep zeroed) 5 400;
    Retrieve (_lastRep zeroed) 0 500 ].

(** One reporter that overruns, is served, reports again and is served the
    overrun report: the calls up to the second retrieval. *)
Definition overrun_served_late : list call :=
  [ New 10%nat zeroed SERVO_REP;
    Submit 10%nat LOCO_STOP 42 100;
    Submit 10%nat VL53_ERR 9 200;
    Retrieve (_lastRep zeroed) 0 300;
    Submit 10%nat ROTQ_ROT 3 350 ].

Definition is_retrieval (c : call) : Prop :=
  match c with Retrieve _ _ _ => True | _ => False end.

(** The submissions of one reporter, one after the other. *)
Definition submissions (this : addr) (l : list (EventType * Z * N)) : list call :=
  (λ x, Submit this x.1.1 x.1.2 x.2) <$> l.

(** Reporter 10 alone submits [n] reports that nobody retrieves; reporter
    20 is constructed but stays silent. *)
Definition flood (n : N) : list call :=
  [New 10%nat zeroed SERVO_REP; New 20%nat zeroed VL53_REP]
  ++ replicate (N.to_nat n) (Submit 10%nat LOCO_STOP 1 5).

(** Closed facts about sample runs are settled by running the model. *)
Ltac by_running := repeat apply conj; vm_compute; reflexivity.

(** * The fixed-point macros of [daws.h]

    [typedef long FixPnt2408]: "32 bit (long) fractional arithmetic", the
    low order 8 bits being the fraction.  The two macros are modelled on
    operands of type [long]; a result of [None] stands for an operation
    the language leaves undefined (overflow of a signed addition or
    subtraction, a shift count outside the width).  [>>] on a negative
    [long] is the arithmetic shift the target's compiler implements. *)

Definition long_min : Z := (- 2 ^ 31)%Z.
Definition long_max : Z := (2 ^ 31 - 1)%Z.

(** The result of an arithmetic operation on [long]. *)
Definition in_long (z : Z) : option Z :=
  if decide (long_min ≤ z ≤ long_max)%Z then Some z else None.

(** [#define ROUND(v, p) ((v + (((long)1) << (p - 1))) >> (p))] *)
Definition ROUND (v p : Z) : option Z :=
  if decide (1 ≤ p ≤ 31)%Z then
    sum ← in_long (v + Z.shiftl 1 (p - 1))%Z;
    Some (Z.shiftr sum p)
  else None.

(** [#define LP_FILTER(x, y, n) ((y) - (ROUND(y, n)) + (x))] *)
Definition LP_FILTER (x y n : Z) : option Z :=
  r ← ROUND y n;
  d ← in_long (y - r)%Z;
  in_long (d + x)%Z.

(** * Observations on runs *)

(** The report returned by the first retrieval of pointer [rp] in a log. *)
Fixpoint first_got (rp : report_ptr) (log : list event) : option report_t :=
  match log with
  | [] => None
  | Got rp' r :: log => if decide (rp' = rp) then Some r else first_got rp log
  | Put _ :: log => first_got rp log
  end.

(** The number of submissions among a list of calls. *)
Definition submitted (cs : list call) : nat :=
  length (omap (λ c, match c with Submit this _ _ _ => Some this | _ => None end) cs).

(** The number of constructions that let the class assign the id. *)
Definition autos (cs : list construction) : nat :=
  length (filter (λ c, c.2 = None) cs).

(** A full queue whose reporter 20 then loses a fresh report. *)
Definition flood_then_drop : list call :=
  flood 16 ++ [Submit 20%nat VL53_RANGE_CLOSE 7 600].

(** * The wait of the consumer

    [rtos::Queue::try_get_for], which suspends the consumer, belongs to
    the RTOS and not to the sources of this repository: its behaviour in
    time is taken from the spec.  [tryGetReport] above is the call from
    the instant at which [try_get_for] hands control back;
    [tryGetReport_timed] is the whole call. *)

(** A submission a producer makes [after] so much time since the consumer
    started to wait. *)
Record arrival : Type := mk_arrival {
  after : N;
  who : addr;
  kind : EventType;
  payload : Z;
  stamp : N
}.

(** Modelled from the spec: [rtos::Kernel::wait_for_u32_forever], the
    largest value of [duration_u32], which the RTOS takes as a wait
    without end. *)
Definition wait_for_u32_forever : N := 2 ^ 32 - 1.

(** What the caller of the retrieval sees: the call returns after
    [elapsed] time with its result, the state it leaves and the
    submissions still to come, or the caller stays suspended. *)
Inductive outcome : Type :=
  | Returned (found : bool) (rdp : report_t) (elapsed : N) (s : State)
             (later : list arrival)
  | Suspended.

(** Modelled from the spec: the suspension of the caller inside
    [rtos::Queue::try_get_for], which is not in the sources.  The spec
    has the call "block the calling thread up to [timeout] (zero meaning
    'poll, don't wait') waiting for an available reference" and return
    "[found = false] on timeout, [true] with the reference otherwise";
    a wait of [T] on a channel that receives an event after [t < T]
    returns found at [t].  The largest duration of the RTOS,
    [wait_for_u32_forever], is a wait without end.

    [bool Reporter::tryGetReport(report_t* rdp, duration_u32 waitTime)]
    with its wait: the consumer is suspended while the queue is empty,
    the producers submit meanwhile, and the first pointer that arrives
    before the wait expires ends the wait; what the call then does is
    [tryGetReport].  [soon] lists, in the order of their times, the
    submissions the producers make from the start of the call on, and
    [micros] is the value of [micros()] when the call resumes. *)
Definition tryGetReport_timed (rdp : report_t) (waitTime micros : N)
    (soon : list arrival) (s : State) : option outcome :=
  match _reportQueue s, soon with
  | _ :: _, _ =>
      '(found, r, s') ← tryGetReport rdp waitTime micros s;
      Some (Returned found r 0 s' soon)
  | [], a :: later =>
      if decide (waitTime = wait_for_u32_forever ∨ after a < waitTime) then
        s1 ← queueReport (who a) (kind a) (payload a) (stamp a) s;
        '(found, r, s') ← tryGetReport rdp waitTime micros s1;
        Some (Returned found r (after a) s' later)
      else
        '(found, r, s') ← tryGetReport rdp waitTime micros s;
        Some (Returned found r waitTime s' soon)
  | [], [] =>
      if decide (waitTime = wait_for_u32_forever) then Some Suspended
      else
        '(found, r, s') ← tryGetReport rdp waitTime micros s;
        Some (Returned found r waitTime s' [])
  end.




(** * Properties *)

(** ** The two queue operations in closed form *)

Lemma unacknowledged_nonzero me :
  unacknowledged me = true ↔ timeStampIn (_lastRep me) ≠ 0.
Proof. unfold unacknowledged. rewrite N.ltb_lt. lia. Qed.

Lemma try_put_spec rp q :
  Queue.try_put rp q = if full q then None else Some (q ++ [rp]).
Proof.
  unfold Queue.try_put, full.
  destruct (decide (length q < Queue.capacity)%nat) as [Hlt|Hge].
  - rewrite bool_decide_eq_false_2; [done | lia].
  - rewrite bool_decide_eq_true_2; [done | lia].
Qed.

Lemma queueReport_eq this k i t s me :
  heap s !! this = Some me →
  queueReport this k i t s =
    Some {|
      heap := <[this := if unacknowledged me
                        then set_overRunRep (overrun_record this k t) me
                        else set_lastRep (fresh_record this k i t) me]> (heap s);
      _lastInstantiated := _lastInstantiated s;
      _firstReporter := _firstReporter s;
      _lastId := _lastId s;
      _reportQueue := if full (_reportQueue s) then _reportQueue s
                      else _reportQueue s ++ [(this, chosen me)];
      _overRunCount := if unacknowledged me then incr_uint16 (_overRunCount s)
                       else _overRunCount s;
      _queueFullCount := if full (_reportQueue s)
                         then incr_uint16 (_queueFullCount s)
                         else _queueFullCount s |}.
Proof.
  intros Hme. unfold queueReport, chosen. rewrite Hme. simpl.
  fold (unacknowledged me).
  destruct (unacknowledged me); simpl; rewrite try_put_spec;
    destruct (full (_reportQueue s)); reflexivity.
Qed.

Lemma tryGetReport_nil rdp w t s :
  _reportQueue s = [] → tryGetReport rdp w t s = Some (false, rdp, s).
Proof. intros Hq. unfold tryGetReport. by rewrite Hq. Qed.

Lemma tryGetReport_cons rdp w t s p sl q owner :
  _reportQueue s = (p, sl) :: q →
  heap s !! p = Some owner →
  tryGetReport rdp w t s =
    Some (true, copied (get_slot sl owner) t,
          {| heap := <[p := set_slot sl (released (get_slot sl owner) t) owner]> (heap s);
             _lastInstantiated := _lastInstantiated s;
             _firstReporter := _firstReporter s;
             _lastId := _lastId s;
             _reportQueue := q;
             _overRunCount := _overRunCount s;
             _queueFullCount := _queueFullCount s |}).
Proof.
  intros Hq Ho. unfold tryGetReport. rewrite Hq. simpl. rewrite Ho. reflexivity.
Qed.

Lemma tryGetReport_false rdp w t s rdp' s' :
  tryGetReport rdp w t s = Some (false, rdp', s') →
  _reportQueue s = [] ∧ rdp' = rdp ∧ s' = s.
Proof.
  unfold tryGetReport. destruct (_reportQueue s) as [|[p sl] q]; simpl.
  - by intros [= <- <-].
  - destruct (heap s !! p); simpl; intros [=].
Qed.

(** ** The constructors and the chain of reporters *)

Lemma Reporter_ctor_eq this raw ty s :
  heap s !! this = None →
  Reporter_ctor this raw ty s =
    s1 ← enchain this s;
    Some (set_lastId (incr_byte (_lastId s))
            (set_heap (<[this := mk_Reporter None (incr_byte (_lastId s))
                                  (mk_report (repType (_lastRep raw))
                                     (source (_lastRep raw)) 0 0 (info (_lastRep raw)))
                                  (_overRunRep raw)]> (heap s1)) s1)).
Proof.
  intros Hfresh. unfold Reporter_ctor, enchain.
  rewrite decide_False by (rewrite Hfresh; apply is_Some_None).
  simpl. destruct (_firstReporter s); simpl; [|done].
  destruct (_lastInstantiated s) as [l|]; simpl; [|done].
  unfold _link; simpl. by destruct (heap s !! l).
Qed.

Lemma Reporter_ctor_id_eq this raw ty id s :
  heap s !! this = None →
  Reporter_ctor_id this raw ty id s =
    s1 ← enchain this s;
    Some (set_heap (<[this := mk_Reporter None id (_lastRep raw) (_overRunRep raw)]>
                      (heap s1)) s1).
Proof.
  intros Hfresh. unfold Reporter_ctor_id, enchain.
  rewrite decide_False by (rewrite Hfresh; apply is_Some_None).
  destruct (_firstReporter s); simpl; [|done].
  destruct (_lastInstantiated s) as [l|]; simpl; [|done].
  unfold _link; simpl. by destruct (heap s !! l).
Qed.

Lemma registry_live s ps p : registry s ps → p ∈ ps → is_Some (heap s !! p).
Proof.
  intros (_ & _ & _ & Hnext) [i Hi]%list_elem_of_lookup.
  specialize (Hnext i p Hi). unfold getNextReporter in Hnext.
  destruct (heap s !! p); [eauto | discriminate].
Qed.

Lemma registry_init : registry init [].
Proof.
  repeat split; [constructor | intros i p Hi; by rewrite lookup_nil in Hi].
Qed.

(** [enchain] on a chain [ps]: the former last reporter, if any, is linked
    to [this]; nothing else in the heap changes. *)
Lemma enchain_registry this s ps :
  registry s ps →
  ∃ s1, enchain this s = Some s1 ∧
        _firstReporter s1 = head (ps ++ [this]) ∧
        _lastInstantiated s1 = Some this ∧
        _lastId s1 = _lastId s ∧
        _reportQueue s1 = _reportQueue s ∧
        _overRunCount s1 = _overRunCount s ∧
        _queueFullCount s1 = _queueFullCount s ∧
        heap s1 = match last ps with
                  | None => heap s
                  | Some l => alter (set_nextReporter (Some this)) l (heap s)
                  end.
Proof.
  intros Hreg. pose proof Hreg as (Hnd & Hfirst & Hlast & Hnext). unfold enchain.
  destruct ps as [|p0 ps'] using rev_ind.
  - simpl in *. rewrite Hfirst. simpl. eexists. split; [done|]. by simpl.
  - clear IHps'. rewrite last_snoc in Hlast |- *.
    assert (Hhd : ∃ h, head (ps' ++ [p0]) = Some h) by (destruct ps'; simpl; eauto).
    destruct Hhd as [h Hh]. rewrite Hh in Hfirst. rewrite Hfirst, Hlast. simpl.
    assert (Hl : is_Some (heap s !! p0)).
    { apply (registry_live s (ps' ++ [p0])); [done|].
      apply elem_of_app; right; apply list_elem_of_singleton; done. }
    destruct Hl as [me Hme]. unfold _link. rewrite Hme. simpl.
    eexists. split; [done|]. simpl.
    repeat split; try done.
    + rewrite <- app_assoc. destruct ps'; simpl in *; congruence.
    + apply map_eq. intros j. rewrite lookup_alter, lookup_insert.
      repeat case_decide; subst; try congruence; by rewrite ?Hme.
Qed.

Lemma registry_extend s s' ps this me :
  registry s ps →
  heap s !! this = None →
  _nextReporter me = None →
  _firstReporter s' = head (ps ++ [this]) →
  _lastInstantiated s' = Some this →
  heap s' = <[this := me]>
              (match last ps with
               | None => heap s
               | Some l => alter (set_nextReporter (Some this)) l (heap s)
               end) →
  registry s' (ps ++ [this]).
Proof.
  intros Hreg Hfresh Hme Hfirst' Hlast' Hheap.
  pose proof Hreg as (Hnd & Hfirst & Hlast & Hnext).
  assert (Hnotin : this ∉ ps).
  { intros Hin. destruct (registry_live _ _ _ Hreg Hin) as [x Hx]. congruence. }
  split; [|split; [|split]].
  - apply NoDup_app. split; [done|]. split; [|apply NoDup_singleton].
    intros x Hx ->%list_elem_of_singleton. done.
  - done.
  - by rewrite last_snoc.
  - intros i p Hi. unfold getNextReporter. rewrite Hheap.
    destruct (decide (i < length ps)%nat) as [Hlt|Hge].
    + rewrite lookup_app_l in Hi by done.
      assert (Hp : p ≠ this).
      { intros ->. apply Hnotin. by eapply list_elem_of_lookup_2. }
      rewrite lookup_insert_ne by done.
      specialize (Hnext i p Hi). unfold getNextReporter in Hnext.
      destruct (heap s !! p) as [mp|] eqn:Hmp; [|discriminate].
      simpl in Hnext. injection Hnext as Hnext.
      rewrite last_lookup. 
      destruct (decide (S i = length ps)) as [Heq|Hne].
      * replace (pred (length ps)) with i by lia. rewrite Hi.
        rewrite lookup_alter_eq, Hmp. simpl.
        rewrite lookup_app_r by lia. replace (S i - length ps)%nat with 0%nat by lia.
        done.
      * rewrite lookup_app_l by lia. rewrite <- Hnext.
        destruct (ps !! pred (length ps)) as [l|] eqn:Hl; [|by rewrite Hmp].
        rewrite lookup_alter_ne, Hmp; [done|].
        intros ->. assert (pred (length ps) = i) by (eapply NoDup_lookup; eauto). lia.
    + rewrite lookup_app_r in Hi by lia.
      destruct (i - length ps)%nat eqn:Hd; simpl in Hi; [|discriminate].
      injection Hi as <-.
      rewrite lookup_insert_eq. simpl. rewrite Hme.
      rewrite lookup_ge_None_2; [done|]. rewrite length_app. simpl. lia.
Qed.

(** Both constructors put the new reporter at the end of the chain. *)
Lemma Reporter_ctor_registry this raw ty s ps :
  registry s ps →
  heap s !! this = None →
  ∃ s', Reporter_ctor this raw ty s = Some s' ∧
        registry s' (ps ++ [this]) ∧
        heap s' !! this =
          Some (mk_Reporter None (incr_byte (_lastId s))
                  (mk_report (repType (_lastRep raw)) (source (_lastRep raw))
                     0 0 (info (_lastRep raw)))
                  (_overRunRep raw)) ∧
        _reportQueue s' = _reportQueue s ∧
        _overRunCount s' = _overRunCount s ∧
        _queueFullCount s' = _queueFullCount s ∧
        ∀ p, p ≠ this →
             _lastRep <$> heap s' !! p = _lastRep <$> heap s !! p ∧
             _overRunRep <$> heap s' !! p = _overRunRep <$> heap s !! p.
Proof.
  intros Hreg Hfresh.
  destruct (enchain_registry this s ps Hreg)
    as (s1 & Hs1 & Hf1 & Hl1 & Hid1 & Hq1 & Ho1 & Hc1 & Hh1).
  rewrite Reporter_ctor_eq, Hs1 by done. simpl.
  eexists. split; [done|]. split; [|split; [|split; [|split; [|split]]]]; simpl; try done.
  - eapply (registry_extend s _ ps this (mk_Reporter None _ _ _) Hreg Hfresh);
      simpl; [done | exact Hf1 | exact Hl1 | by rewrite Hh1].
  - by rewrite lookup_insert_eq.
  - intros p Hp. rewrite lookup_insert_ne by done. rewrite Hh1.
    destruct (last ps) as [l|]; [|done].
    rewrite lookup_alter. case_decide; [subst|done].
    by destruct (heap s !! p).
Qed.

Lemma Reporter_ctor_id_registry this raw ty id s ps :
  registry s ps →
  heap s !! this = None →
  ∃ s', Reporter_ctor_id this raw ty id s = Some s' ∧
        registry s' (ps ++ [this]) ∧
        heap s' !! this = Some (mk_Reporter None id (_lastRep raw) (_overRunRep raw)) ∧
        _reportQueue s' = _reportQueue s ∧
        _overRunCount s' = _overRunCount s ∧
        _queueFullCount s' = _queueFullCount s ∧
        ∀ p, p ≠ this →
             _lastRep <$> heap s' !! p = _lastRep <$> heap s !! p ∧
             _overRunRep <$> heap s' !! p = _overRunRep <$> heap s !! p.
Proof.
  intros Hreg Hfresh.
  destruct (enchain_registry this s ps Hreg)
    as (s1 & Hs1 & Hf1 & Hl1 & Hid1 & Hq1 & Ho1 & Hc1 & Hh1).
  rewrite Reporter_ctor_id_eq, Hs1 by done. simpl.
  eexists. split; [done|]. split; [|split; [|split; [|split; [|split]]]]; simpl; try done.
  - eapply (registry_extend s _ ps this (mk_Reporter None _ _ _) Hreg Hfresh);
      simpl; [done | exact Hf1 | exact Hl1 | by rewrite Hh1].
  - by rewrite lookup_insert_eq.
  - intros p Hp. rewrite lookup_insert_ne by done. rewrite Hh1.
    destruct (last ps) as [l|]; [|done].
    rewrite lookup_alter. case_decide; [subst|done].
    by destruct (heap s !! p).
Qed.

(** Following the chain from its [i]-th member visits the rest of it. *)
Lemma traverse_registry s ps :
  registry s ps →
  ∀ fuel i, (length ps - i ≤ fuel)%nat → traverse fuel (ps !! i) s = Some (drop i ps).
Proof.
  intros (_ & _ & _ & Hnext). induction fuel as [|fuel IH]; intros i Hfuel.
  - rewrite lookup_ge_None_2 by lia. simpl. rewrite drop_ge by lia. done.
  - destruct (ps !! i) as [a|] eqn:Hi.
    + simpl. rewrite (Hnext i a Hi). simpl. rewrite IH by lia. simpl.
      by rewrite (drop_S ps a i Hi).
    + simpl. apply lookup_ge_None_1 in Hi. rewrite drop_ge by lia. done.
Qed.

Lemma traverse_first s ps fuel :
  registry s ps →
  (length ps ≤ fuel)%nat →
  traverse fuel (getFirstReporter s) s = Some ps.
Proof.
  intros Hreg Hfuel. pose proof Hreg as (_ & Hfirst & _).
  unfold getFirstReporter. rewrite Hfirst, head_lookup.
  rewrite (traverse_registry s ps Hreg) by lia. by rewrite drop_0.
Qed.

(** ** The invariant is kept by every call *)

(** A write to a reporter that keeps its link keeps the chain. *)
Lemma registry_update s s' ps p me me' :
  registry s ps →
  heap s !! p = Some me →
  _nextReporter me' = _nextReporter me →
  heap s' = <[p := me']> (heap s) →
  _firstReporter s' = _firstReporter s →
  _lastInstantiated s' = _lastInstantiated s →
  registry s' ps.
Proof.
  intros (Hnd & Hfirst & Hlast & Hnext) Hme Hsame Hheap Hf Hl.
  split; [done|]. split; [congruence|]. split; [congruence|].
  intros i a Hi. specialize (Hnext i a Hi). unfold getNextReporter in *.
  rewrite Hheap. destruct (decide (p = a)) as [->|Hne].
  - rewrite lookup_insert_eq. rewrite Hme in Hnext. simpl in *. congruence.
  - by rewrite lookup_insert_ne.
Qed.

(** A write to a reporter keeps the sources of the queued pointers when
    each of its two records keeps its source or names the reporter. *)
Lemma source_of_update s s' p me me' rp :
  heap s !! p = Some me →
  heap s' = <[p := me']> (heap s) →
  (∀ sl, source (get_slot sl me') = source (get_slot sl me) ∨
         source (get_slot sl me') = Some p) →
  source_of s rp = Some rp.1 →
  source_of s' rp = Some rp.1.
Proof.
  intros Hme Hheap Hsrc. unfold source_of. rewrite Hheap.
  destruct rp as [a sl]. simpl. destruct (decide (p = a)) as [->|Hne].
  - rewrite lookup_insert_eq, Hme. simpl. destruct (Hsrc sl); congruence.
  - by rewrite lookup_insert_ne.
Qed.

Lemma live_update (h : gmap addr Reporter) p me me' a :
  h !! p = Some me →
  is_Some (<[p := me']> h !! a) → is_Some (h !! a).
Proof.
  intros Hme. destruct (decide (p = a)) as [->|Hne].
  - rewrite Hme. eauto.
  - by rewrite lookup_insert_ne.
Qed.

Lemma queue_ok_live s rp :
  queue_ok s → rp ∈ _reportQueue s →
  ∃ owner, heap s !! rp.1 = Some owner ∧ source (get_slot rp.2 owner) = Some rp.1.
Proof.
  intros [Hsrc _] Hin. rewrite Forall_forall in Hsrc. specialize (Hsrc rp Hin).
  unfold source_of in Hsrc. destruct (heap s !! rp.1) as [owner|]; [|discriminate].
  eauto.
Qed.

Lemma inv_fresh s ps this : inv s ps → this ∉ ps → heap s !! this = None.
Proof.
  intros (_ & _ & Hlive) Hnotin. destruct (heap s !! this) eqn:Hthis; [|done].
  exfalso. apply Hnotin, Hlive. by rewrite Hthis.
Qed.

(** A constructor keeps the invariant; it touches neither the queue nor
    the records of the reporters that live already. *)
Lemma inv_construct s s' ps this :
  inv s ps →
  heap s !! this = None →
  registry s' (ps ++ [this]) →
  is_Some (heap s' !! this) →
  _reportQueue s' = _reportQueue s →
  (∀ p, p ≠ this →
        _lastRep <$> heap s' !! p = _lastRep <$> heap s !! p ∧
        _overRunRep <$> heap s' !! p = _overRunRep <$> heap s !! p) →
  inv s' (ps ++ [this]).
Proof.
  intros (Hreg & Hq & Hlive) Hfresh Hreg' Hthis Hqueue Hsame.
  split; [done|]. split; [split|].
  - rewrite Hqueue. apply Forall_forall. intros [a sl] Hin.
    destruct (queue_ok_live s (a, sl) Hq Hin) as (owner & Ho & Hs). simpl in *.
    assert (Ha : a ≠ this) by congruence.
    destruct (Hsame a Ha) as [Hl Ho']. rewrite Ho in Hl, Ho'.
    unfold source_of. simpl.
    destruct (heap s' !! a) as [owner'|]; simpl in *; [|discriminate].
    destruct sl; simpl in *; congruence.
  - rewrite Hqueue. apply Hq.
  - intros p Hp. apply elem_of_app. destruct (decide (p = this)) as [->|Hne].
    + right. by apply list_elem_of_singleton.
    + left. apply Hlive. destruct (Hsame p Hne) as [Hl _].
      destruct Hp as [x Hx]. rewrite Hx in Hl.
      destruct (heap s !! p); [eauto | discriminate].
Qed.

(** One call from a state that satisfies the invariant: the call returns,
    the invariant holds afterwards, and the pointers put and got account
    for the change of the queue. *)
Lemma step_inv c s ps :
  inv s ps →
  calls_ok ps [c] →
  ∃ s' ev, step c s = Some (s', ev) ∧
           inv s' (ps ++ constructed [c]) ∧
           _reportQueue s ++ puts ev = gots ev ++ _reportQueue s' ∧
           Forall2 (λ rp r, source r = Some rp.1) (gots ev) (reports ev).
Proof.
  intros Hinv Hok. pose proof Hinv as (Hreg & Hq & Hlive).
  destruct c as [this raw ty|this raw ty id|this k i t|rdp w t]; simpl in Hok |- *.
  - destruct Hok as [Hnotin _]. pose proof (inv_fresh s ps this Hinv Hnotin) as Hfresh.
    destruct (Reporter_ctor_registry this raw ty s ps Hreg Hfresh)
      as (s' & -> & Hreg' & Hthis & Hqueue & _ & _ & Hsame). simpl.
    eexists _, _. split; [done|]. split; [|split]; simpl.
    + eapply inv_construct; eauto.
    + by rewrite Hqueue, app_nil_r.
    + constructor.
  - destruct Hok as [Hnotin _]. pose proof (inv_fresh s ps this Hinv Hnotin) as Hfresh.
    destruct (Reporter_ctor_id_registry this raw ty id s ps Hreg Hfresh)
      as (s' & -> & Hreg' & Hthis & Hqueue & _ & _ & Hsame). simpl.
    eexists _, _. split; [done|]. split; [|split]; simpl.
    + eapply inv_construct; eauto.
    + by rewrite Hqueue, app_nil_r.
    + constructor.
  - destruct Hok as [Hin _]. destruct (registry_live s ps this Hreg Hin) as [me Hme].
    rewrite Hme. simpl. rewrite (queueReport_eq this k i t s me Hme). simpl.
    eexists _, _. split; [done|]. rewrite app_nil_r.
    set (me' := if unacknowledged me
                then set_overRunRep (overrun_record this k t) me
                else set_lastRep (fresh_record this k i t) me).
    assert (Hsrc : ∀ sl, source (get_slot sl me') = source (get_slot sl me) ∨
                         source (get_slot sl me') = Some this).
    { intros sl. unfold me'. destruct (unacknowledged me), sl; simpl; auto. }
    split; [split; [|split; [split|]]|split]; simpl.
    + eapply (registry_update s _ ps this me me'); eauto.
      unfold me'. by destruct (unacknowledged me).
    + assert (Hold : Forall (λ rp, source_of
                 {| heap := <[this:=me']> (heap s);
                    _lastInstantiated := _lastInstantiated s;
                    _firstReporter := _firstReporter s;
                    _lastId := _lastId s;
                    _reportQueue := if full (_reportQueue s) then _reportQueue s
                                    else _reportQueue s ++ [(this, chosen me)];
                    _overRunCount := if unacknowledged me
                                     then incr_uint16 (_overRunCount s)
                                     else _overRunCount s;
                    _queueFullCount := if full (_reportQueue s)
                                       then incr_uint16 (_queueFullCount s)
                                       else _queueFullCount s |} rp = Some rp.1)
                 (_reportQueue s)).
      { eapply Forall_impl; [apply Hq|]. intros rp Hrp.
        eapply (source_of_update s _ this me me'); eauto. }
      destruct (full (_reportQueue s)); [done|].
      apply Forall_app. split; [done|]. constructor; [|constructor].
      unfold source_of. simpl. rewrite lookup_insert_eq. simpl.
      unfold me', chosen. by destruct (unacknowledged me).
    + destruct (full (_reportQueue s)) eqn:Hfull; [apply Hq|].
      unfold full in Hfull. apply bool_decide_eq_false in Hfull.
      rewrite length_app. simpl. lia.
    + intros p Hp. apply Hlive. by eapply (live_update (heap s) this me me').
    + by destruct (full (_reportQueue s)); simpl; rewrite ?app_nil_r.
    + destruct (full (_reportQueue s)); constructor.
  - destruct (_reportQueue s) as [|[p sl] q] eqn:Hqueue.
    + rewrite (tryGetReport_nil rdp w t s Hqueue). simpl.
      eexists _, _. split; [done|]. rewrite app_nil_r, Hqueue.
      split; [done|]. split; [done|]. constructor.
    + destruct (queue_ok_live s (p, sl) Hq) as (owner & Ho & Hsrc).
      { rewrite Hqueue. apply list_elem_of_here. }
      simpl in Ho, Hsrc.
      rewrite (tryGetReport_cons rdp w t s p sl q owner Hqueue Ho). simpl.
      eexists _, _. split; [done|]. rewrite app_nil_r.
      set (owner' := set_slot sl (released (get_slot sl owner) t) owner).
      split; [split; [|split; [split|]]|split]; simpl.
      * eapply (registry_update s _ ps p owner owner'); eauto.
        unfold owner'. by destruct sl.
      * destruct Hq as [Hall _]. rewrite Hqueue in Hall.
        apply Forall_cons in Hall as [_ Hall].
        eapply Forall_impl; [exact Hall|]. intros rp Hrp.
        eapply (source_of_update s _ p owner owner'); eauto.
        intros sl'. left. unfold owner'. by destruct sl, sl'.
      * destruct Hq as [_ Hlen]. rewrite Hqueue in Hlen. simpl in Hlen. lia.
      * intros a Ha. apply Hlive. by eapply (live_update (heap s) p owner owner').
      * by rewrite app_nil_r.
      * constructor; [done|constructor].
Qed.

Lemma calls_ok_cons ps c cs :
  calls_ok ps (c :: cs) ↔ calls_ok ps [c] ∧ calls_ok (ps ++ constructed [c]) cs.
Proof.
  destruct c; simpl; rewrite ?app_nil_r; tauto.
Qed.

Lemma constructed_cons c cs : constructed (c :: cs) = constructed [c] ++ constructed cs.
Proof. by destruct c. Qed.

Lemma inv_init : inv init [].
Proof.
  split; [apply registry_init|]. split.
  - split; [constructor | simpl; unfold Queue.capacity; lia].
  - intros p [x Hx]. simpl in Hx. by rewrite lookup_empty in Hx.
Qed.

(** Every run of an admissible list of calls goes through; the invariant
    holds at its end and the queue is the pointers put, in order, less the
    pointers got, in order. *)
Lemma run_inv cs :
  ∀ s ps,
    inv s ps →
    calls_ok ps cs →
    ∃ s' log, run cs s = Some (s', log) ∧
              inv s' (ps ++ constructed cs) ∧
              _reportQueue s ++ puts log = gots log ++ _reportQueue s' ∧
              Forall2 (λ rp r, source r = Some rp.1) (gots log) (reports log).
Proof.
  induction cs as [|c cs IH]; intros s ps Hinv Hok.
  - exists s, []. simpl. rewrite !app_nil_r.
    split; [done|]. split; [done|]. split; [done|]. constructor.
  - apply calls_ok_cons in Hok as [Hc Hcs].
    destruct (step_inv c s ps Hinv Hc) as (s1 & e1 & Hstep & Hinv1 & Hq1 & Hr1).
    destruct (IH s1 _ Hinv1 Hcs) as (s2 & e2 & Hrun & Hinv2 & Hq2 & Hr2).
    rewrite constructed_cons, app_assoc.
    exists s2, (e1 ++ e2). cbn [run]. rewrite Hstep. simpl. rewrite Hrun. simpl.
    split; [done|]. split; [|split].
    + done.
    + unfold puts, gots in *. rewrite !omap_app.
      rewrite app_assoc, Hq1, <- app_assoc, Hq2, app_assoc. done.
    + unfold gots, reports in *. rewrite !omap_app. by apply Forall2_app.
Qed.

(** ** The chain of reporters *)

Lemma calls_ok_construct (cs : list construction) :
  ∀ live, NoDup (live ++ (built <$> cs)) → calls_ok live (construct <$> cs).
Proof.
  induction cs as [|[[[this raw] ty] id] cs IH]; intros live Hnd; [done|].
  cbn [fmap list_fmap] in Hnd |- *. unfold built at 1 in Hnd. simpl in Hnd.
  assert (Hsplit : (this ∉ live) ∧ calls_ok (live ++ [this]) (construct <$> cs)).
  { split.
    - apply NoDup_app in Hnd as (_ & Hdisj & _). intros Hin.
      apply (Hdisj this Hin). apply list_elem_of_here.
    - apply IH. by rewrite <- app_assoc. }
  destruct id; exact Hsplit.
Qed.

Lemma constructed_construct (cs : list construction) :
  constructed (construct <$> cs) = built <$> cs.
Proof.
  induction cs as [|[[[this raw] ty] id] cs IH]; [done|].
  cbn [fmap list_fmap]. rewrite constructed_cons. cbn [fmap list_fmap] in IH.
  rewrite IH. by destruct id.
Qed.

(** C6. Constructing reporters P1..Pk in that order, each in storage of
    its own and with either constructor, succeeds; afterwards the
    traversal that starts at getFirstReporter() and follows
    getNextReporter() visits exactly P1..Pk in that order and ends at the
    null pointer, whatever bound of at least k is put on its length.
    Before any construction getFirstReporter() is the null pointer. *)
Theorem registry_traversal (cs : list construction) :
  NoDup (built <$> cs) →
  getFirstReporter init = None ∧
  ∃ s log,
    run (construct <$> cs) init = Some (s, log) ∧
    ∀ fuel, (length cs ≤ fuel)%nat →
            traverse fuel (getFirstReporter s) s = Some (built <$> cs).
Proof.
  intros Hnd. split; [done|].
  destruct (run_inv (construct <$> cs) init [] inv_init)
    as (s & log & Hrun & (Hreg & _) & _).
  { by apply calls_ok_construct. }
  exists s, log. split; [done|]. intros fuel Hfuel.
  rewrite constructed_construct in Hreg. simpl in Hreg.
  apply traverse_first; [done|]. by rewrite length_fmap.
Qed.

Lemma registry_traversal_witness :
  NoDup (built <$> [(10%nat, stale, SERVO_REP, None);
                    (20%nat, stale, VL53_REP, Some 200);
                    (30%nat, zeroed, BLE_REP, None)]) ∧
  ∃ s log,
    run (construct <$> [(10%nat, stale, SERVO_REP, None);
                        (20%nat, stale, VL53_REP, Some 200);
                        (30%nat, zeroed, BLE_REP, None)]) init = Some (s, log) ∧
    traverse 3 (getFirstReporter s) s = Some [10%nat; 20%nat; 30%nat].
Proof.
  assert (Hnd : NoDup (built <$> [(10%nat, stale, SERVO_REP, None);
                                  (20%nat, stale, VL53_REP, Some 200);
                                  (30%nat, zeroed, BLE_REP, None)])).
  { compute_done. }
  split; [exact Hnd|].
  destruct (registry_traversal _ Hnd) as (_ & s & log & Hrun & Htr).
  exists s, log. split; [exact Hrun|]. apply (Htr 3%nat). simpl. lia.
Defined.

(** The chain is stable: whatever admissible calls a program makes from
    the initial state, the traversal visits the reporters constructed so
    far in the order of their construction. *)
Lemma registry_stable cs :
  calls_ok [] cs →
  ∃ s log, run cs init = Some (s, log) ∧
           traverse (length (constructed cs)) (getFirstReporter s) s
             = Some (constructed cs).
Proof.
  intros Hok.
  destruct (run_inv cs init [] inv_init Hok) as (s & log & Hrun & (Hreg & _) & _).
  exists s, log. split; [done|]. by apply traverse_first.
Qed.

(** ** Construction *)

(** C5, amended. A constructor run in storage that holds no live reporter
    appends the new reporter to the chain, whichever constructor it is.
    The constructor that assigns the identifier itself sets both time
    stamps of the current record to 0; neither constructor writes the
    overrun record, which keeps what the storage held. *)
Theorem constructor_links_and_acknowledges this raw ty s ps :
  registry s ps →
  heap s !! this = None →
  (∃ s' me,
      Reporter_ctor this raw ty s = Some s' ∧
      registry s' (ps ++ [this]) ∧
      heap s' !! this = Some me ∧
      timeStampIn (_lastRep me) = 0 ∧
      timeStampOut (_lastRep me) = 0 ∧
      _overRunRep me = _overRunRep raw) ∧
  (∀ id, ∃ s' me,
      Reporter_ctor_id this raw ty id s = Some s' ∧
      registry s' (ps ++ [this]) ∧
      heap s' !! this = Some me ∧
      _overRunRep me = _overRunRep raw).
Proof.
  intros Hreg Hfresh. split.
  - destruct (Reporter_ctor_registry this raw ty s ps Hreg Hfresh)
      as (s' & Hs' & Hreg' & Hthis & _).
    eexists s', _. split; [done|]. split; [done|]. split; [exact Hthis|]. done.
  - intros id.
    destruct (Reporter_ctor_id_registry this raw ty id s ps Hreg Hfresh)
      as (s' & Hs' & Hreg' & Hthis & _).
    eexists s', _. split; [done|]. split; [done|]. split; [exact Hthis|]. done.
Qed.

Lemma constructor_links_and_acknowledges_witness :
  registry init [] ∧
  heap init !! 10%nat = None ∧
  ∃ s' me,
    Reporter_ctor 10%nat stale SERVO_REP init = Some s' ∧
    registry s' [10%nat] ∧
    heap s' !! 10%nat = Some me ∧
    timeStampIn (_lastRep me) = 0.
Proof.
  split; [apply registry_init|]. split; [reflexivity|].
  destruct (constructor_links_and_acknowledges 10%nat stale SERVO_REP init []
              registry_init eq_refl) as [(s' & me & H1 & H2 & H3 & H4 & _) _].
  exists s', me. split; [exact H1|]. split; [exact H2|]. split; [exact H3|exact H4].
Defined.

(** C5 as stated fails: the constructor leaves the overrun record as the
    storage held it, here with a time stamp of 11. *)
Lemma constructor_overrun_record_counterexample :
  Reporter_ctor 10%nat stale SERVO_REP init
    = Some (state_after [New 10%nat stale SERVO_REP]) ∧
  timeStampIn <$> (_overRunRep <$> heap (state_after [New 10%nat stale SERVO_REP]) !! 10%nat)
    = Some 11.
Proof. by_running. Qed.

(** The constructor that takes the identifier assigns no time stamp at
    all: the current record too keeps what the storage held. *)
Example Reporter_ctor_id_current_record :
  timeStampIn <$> (_lastRep <$> heap (state_after [NewId 10%nat stale SERVO_REP 200]) !! 10%nat)
    = Some 7.
Proof. by_running. Qed.

(** ** The sample run *)

Lemma sample_calls_ok : calls_ok [] sample_calls.
Proof. simpl. repeat split; compute_done. Qed.

(** The sample run: three pointers are put and got in the same order. *)
Example sample_run_log :
  snd <$> run sample_calls init =
    Some [ Put (10%nat, LastRep); Put (20%nat, LastRep); Put (10%nat, OverRunRep);
           Got (10%nat, LastRep) (mk_report LOCO_STOP (Some 10%nat) 100 300 42);
           Got (20%nat, LastRep) (mk_report VL53_RANGE_CLOSE (Some 20%nat) 150 400 7);
           Got (10%nat, OverRunRep) (mk_report REPORT_OVERRUN (Some 10%nat) 200 500 5) ].
Proof. by_running. Qed.

(** ** Retrieval *)

(** C9. When [tryGetReport] returns false, the caller's structure holds
    what it held before and the state (every record of every reporter,
    both counters, the queue) is the state before the call.  The overload
    without a wait time is the instance [w = 0]. *)
Theorem tryGetReport_false_no_effect rdp w t s rdp' s' :
  tryGetReport rdp w t s = Some (false, rdp', s') →
  rdp' = rdp ∧ s' = s.
Proof. intros H. by apply tryGetReport_false in H as (_ & -> & ->). Qed.

Lemma tryGetReport_false_no_effect_witness :
  tryGetReport (_lastRep stale) 5 300 init = Some (false, _lastRep stale, init) ∧
  _lastRep stale = _lastRep stale ∧ init = init.
Proof.
  split; [reflexivity|].
  apply (tryGetReport_false_no_effect (_lastRep stale) 5 300 init). reflexivity.
Defined.

(** C2, amended. A retrieval that finds a pointer returns true, copies
    type, source, information and time of submission of the record to the
    caller, stamps the time of the call on the copy and on the record and
    sets the record's time of submission to 0; the other record of the
    reporter is not touched.  When the pointer designates the current
    record of its reporter, the next submission of that reporter fills the
    current record and counts no overrun. *)
Theorem tryGetReport_copies_and_releases rdp w t s p sl q owner :
  _reportQueue s = (p, sl) :: q →
  heap s !! p = Some owner →
  ∃ r s' owner',
    tryGetReport rdp w t s = Some (true, r, s') ∧
    repType r = repType (get_slot sl owner) ∧
    source r = source (get_slot sl owner) ∧
    info r = info (get_slot sl owner) ∧
    timeStampIn r = timeStampIn (get_slot sl owner) ∧
    timeStampOut r = t ∧
    _reportQueue s' = q ∧
    heap s' !! p = Some owner' ∧
    timeStampOut (get_slot sl owner') = t ∧
    timeStampIn (get_slot sl owner') = 0 ∧
    (sl = OverRunRep → _lastRep owner' = _lastRep owner) ∧
    (sl = LastRep →
     _overRunRep owner' = _overRunRep owner ∧
     ∀ k i t2, ∃ s'' me,
       queueReport p k i t2 s' = Some s'' ∧
       heap s'' !! p = Some me ∧
       _lastRep me = fresh_record p k i t2 ∧
       _overRunRep me = _overRunRep owner ∧
       _overRunCount s'' = _overRunCount s').
Proof.
  intros Hqueue Ho. eexists _, _, _.
  rewrite (tryGetReport_cons rdp w t s p sl q owner Hqueue Ho).
  split; [done|]. simpl. rewrite lookup_insert_eq.
  do 6 (split; [done|]). split; [done|].
  split; [by destruct sl|]. split; [by destruct sl|].
  split; [by intros ->|]. intros ->. split; [done|]. intros k i t2.
  eexists _, _. erewrite queueReport_eq; [|simpl; apply lookup_insert_eq].
  split; [done|]. simpl. rewrite lookup_insert_eq. done.
Qed.

Lemma tryGetReport_copies_and_releases_witness :
  ∃ r s' owner',
    tryGetReport (_lastRep zeroed) 0 300
      (state_after [New 10%nat zeroed SERVO_REP; Submit 10%nat LOCO_STOP 42 100])
      = Some (true, r, s') ∧
    repType r = LOCO_STOP ∧
    heap s' !! 10%nat = Some owner' ∧
    timeStampIn (_lastRep owner') = 0.
Proof.
  destruct (tryGetReport_copies_and_releases (_lastRep zeroed) 0 300
              (state_after [New 10%nat zeroed SERVO_REP; Submit 10%nat LOCO_STOP 42 100])
              10%nat LastRep []
              (mk_Reporter None 1 (mk_report LOCO_STOP (Some 10%nat) 100 0 42)
                 (_overRunRep zeroed)))
    as (r & s' & owner' & H1 & H2 & _ & _ & _ & _ & _ & H3 & _ & H4 & _).
  - vm_compute; reflexivity.
  - vm_compute; reflexivity.
  - exists r, s', owner'. split; [exact H1|]. split; [exact H2|].
    split; [exact H3 | exact H4].
Defined.

(** C2 as stated fails.  Reporter 10 reports twice, is served its first
    report, reports again and is then served its overrun report: the
    retrieval succeeds and returns a report of reporter 10, yet the next
    submission of reporter 10 is an overrun, because its current record is
    still unacknowledged. *)
Lemma retrieval_then_overrun_counterexample :
  tryGetReport (_lastRep zeroed) 0 400 (state_after overrun_served_late)
    = Some (true, mk_report REPORT_OVERRUN (Some 10%nat) 200 400 5,
            state_after (overrun_served_late ++ [Retrieve (_lastRep zeroed) 0 400])) ∧
  queueReport 10%nat SET_AUTO 1 500
      (state_after (overrun_served_late ++ [Retrieve (_lastRep zeroed) 0 400]))
    = Some (state_after (overrun_served_late ++
                           [Retrieve (_lastRep zeroed) 0 400;
                            Submit 10%nat SET_AUTO 1 500])) ∧
  _overRunCount (state_after (overrun_served_late ++ [Retrieve (_lastRep zeroed) 0 400])) = 1 ∧
  _overRunCount (state_after (overrun_served_late ++
                                [Retrieve (_lastRep zeroed) 0 400;
                                 Submit 10%nat SET_AUTO 1 500])) = 2 ∧
  heap (state_after (overrun_served_late ++
                       [Retrieve (_lastRep zeroed) 0 400;
                        Submit 10%nat SET_AUTO 1 500])) !! 10%nat
    = Some (mk_Reporter None 1
              (mk_report ROTQ_ROT (Some 10%nat) 350 0 3)
              (mk_report REPORT_OVERRUN (Some 10%nat) 500 0 28)).
Proof. by_running. Qed.

(** ** Submission *)

Lemma incr_uint16_small n : n < 65535 → incr_uint16 n = n + 1.
Proof.
  intros Hn. unfold incr_uint16. apply N.mod_small.
  change (2 ^ 16) with 65536. lia.
Qed.

Lemma full_false_lt q : full q = false ↔ (length q < Queue.capacity)%nat.
Proof. unfold full. rewrite bool_decide_eq_false. lia. Qed.

Lemma full_true_le q : full q = true ↔ (Queue.capacity ≤ length q)%nat.
Proof. unfold full. by rewrite bool_decide_eq_true. Qed.

(** C1, amended. A submission by a reporter whose current record has a
    nonzero time of submission returns and goes through the overrun
    record: that record gets the type REPORT_OVERRUN and, as information,
    the type passed to this very call (not the type of the report that is
    still unacknowledged, which stays in the untouched current record);
    the overrun counter is incremented modulo 2^16, that is by exactly 1
    below 65535; and when the queue holds fewer than 16 pointers exactly
    one pointer, to the overrun record, is appended to it. *)
Theorem queueReport_overrun this k i t s me :
  heap s !! this = Some me →
  timeStampIn (_lastRep me) ≠ 0 →
  ∃ s' me',
    queueReport this k i t s = Some s' ∧
    heap s' !! this = Some me' ∧
    repType (_overRunRep me') = REPORT_OVERRUN ∧
    info (_overRunRep me') = EventType_value k ∧
    _lastRep me' = _lastRep me ∧
    _overRunCount s' = incr_uint16 (_overRunCount s) ∧
    (_overRunCount s < 65535 → _overRunCount s' = _overRunCount s + 1) ∧
    ((length (_reportQueue s) < Queue.capacity)%nat →
     _reportQueue s' = _reportQueue s ++ [(this, OverRunRep)]).
Proof.
  intros Hme Hun. apply unacknowledged_nonzero in Hun.
  eexists _, _. rewrite (queueReport_eq this k i t s me Hme).
  split; [done|]. simpl. rewrite lookup_insert_eq, Hun.
  split; [done|]. do 4 (split; [done|]). split.
  - apply incr_uint16_small.
  - intros Hlt. apply full_false_lt in Hlt. rewrite Hlt.
    unfold chosen. by rewrite Hun.
Qed.

Lemma queueReport_overrun_witness :
  ∃ s' me',
    queueReport 10%nat VL53_ERR 9 200
      (state_after [New 10%nat zeroed SERVO_REP; Submit 10%nat LOCO_STOP 42 100])
      = Some s' ∧
    heap s' !! 10%nat = Some me' ∧
    repType (_overRunRep me') = REPORT_OVERRUN ∧
    info (_overRunRep me') = 5%Z.
Proof.
  destruct (queueReport_overrun 10%nat VL53_ERR 9 200
              (state_after [New 10%nat zeroed SERVO_REP; Submit 10%nat LOCO_STOP 42 100])
              (mk_Reporter None 1 (mk_report LOCO_STOP (Some 10%nat) 100 0 42)
                 (_overRunRep zeroed)))
    as (s' & me' & H1 & H2 & H3 & H4 & _).
  - vm_compute; reflexivity.
  - simpl. lia.
  - exists s', me'. split; [exact H1|]. split; [exact H2|]. split; [exact H3|exact H4].
Defined.

(** C1 as stated fails.  Reporter 10 reports LOCO_STOP (value 1) and, that
    report unacknowledged, VL53_ERR (value 5): the overrun report that
    reaches the queue carries 5, the type just passed, not 1. *)
Lemma overrun_payload_counterexample :
  (repType <$> (_lastRep <$>
     heap (state_after [New 10%nat zeroed SERVO_REP;
                        Submit 10%nat LOCO_STOP 42 100]) !! 10%nat)) = Some LOCO_STOP ∧
  queueReport 10%nat VL53_ERR 9 200
      (state_after [New 10%nat zeroed SERVO_REP; Submit 10%nat LOCO_STOP 42 100])
    = Some (state_after [New 10%nat zeroed SERVO_REP; Submit 10%nat LOCO_STOP 42 100;
                         Submit 10%nat VL53_ERR 9 200]) ∧
  _reportQueue (state_after [New 10%nat zeroed SERVO_REP; Submit 10%nat LOCO_STOP 42 100;
                             Submit 10%nat VL53_ERR 9 200])
    = [(10%nat, LastRep); (10%nat, OverRunRep)] ∧
  (info <$> (_overRunRep <$>
     heap (state_after [New 10%nat zeroed SERVO_REP; Submit 10%nat LOCO_STOP 42 100;
                        Submit 10%nat VL53_ERR 9 200]) !! 10%nat)) = Some 5%Z ∧
  EventType_value LOCO_STOP = 1%Z.
Proof. by_running. Qed.

Lemma calls_ok_retrievals ps cs : Forall is_retrieval cs → calls_ok ps cs.
Proof.
  induction 1 as [|c cs Hc _ IH]; [done|]. by destruct c.
Qed.

Lemma puts_retrievals cs :
  Forall is_retrieval cs →
  ∀ s s' log, run cs s = Some (s', log) → puts log = [].
Proof.
  induction 1 as [|c cs Hc _ IH]; intros s s' log Hrun; simpl in Hrun.
  - by injection Hrun as <- <-.
  - destruct c as [| | |rdp w t]; try done. simpl in Hrun.
    destruct (tryGetReport rdp w t s) as [[[found r] s1]|]; simpl in Hrun; [|done].
    destruct (run cs s1) as [[s2 e2]|] eqn:Hrest; simpl in Hrun; [|done].
    injection Hrun as <- <-. unfold puts. rewrite omap_app.
    fold (puts e2). rewrite (IH s1 s2 e2 Hrest), app_nil_r.
    by destruct found, (head (_reportQueue s)).
Qed.

(** C4, amended. When the queue holds 16 pointers a submission returns,
    leaves the queue as it is and increments the full counter modulo 2^16,
    that is by exactly 1 below 65535.  The record the submission wrote
    carries the time of the call as its time of submission; the current
    record of the reporter has a nonzero time of submission afterwards
    provided it had one before or the time of the call is nonzero.  However
    many retrievals follow, they return and get no more than the 16
    pointers the queue held, in their order. *)
Theorem queueReport_queue_full this k i t s ps me :
  inv s ps →
  heap s !! this = Some me →
  length (_reportQueue s) = Queue.capacity →
  ∃ s' me',
    queueReport this k i t s = Some s' ∧
    _reportQueue s' = _reportQueue s ∧
    _queueFullCount s' = incr_uint16 (_queueFullCount s) ∧
    (_queueFullCount s < 65535 → _queueFullCount s' = _queueFullCount s + 1) ∧
    heap s' !! this = Some me' ∧
    timeStampIn (get_slot (chosen me) me') = t ∧
    (timeStampIn (_lastRep me) ≠ 0 ∨ t ≠ 0 → timeStampIn (_lastRep me') ≠ 0) ∧
    (∀ cs, Forall is_retrieval cs →
           ∃ s'' log, run cs s' = Some (s'', log) ∧
                      gots log `prefix_of` _reportQueue s ∧
                      (length (gots log) ≤ Queue.capacity)%nat).
Proof.
  intros Hinv Hme Hlen.
  assert (Hfull : full (_reportQueue s) = true) by (apply full_true_le; lia).
  assert (Hin : this ∈ ps) by (apply Hinv; by rewrite Hme).
  destruct (step_inv (Submit this k i t) s ps Hinv) as (s' & ev & Hstep & Hinv' & _).
  { by split. }
  simpl in Hstep, Hinv'. rewrite app_nil_r in Hinv'.
  rewrite Hme in Hstep. simpl in Hstep.
  rewrite (queueReport_eq this k i t s me Hme) in Hstep |- *.
  simpl in Hstep. injection Hstep as Hs' _. rewrite Hs'.
  assert (Hqueue : _reportQueue s' = _reportQueue s) by (rewrite <- Hs'; simpl; by rewrite Hfull).
  eexists s', _. split; [done|]. split; [done|].
  rewrite <- Hs' at 1 2 3. simpl. rewrite Hfull, lookup_insert_eq.
  split; [done|]. split; [apply incr_uint16_small|]. split; [done|].
  split; [|split].
  - unfold chosen. by destruct (unacknowledged me).
  - destruct (unacknowledged me) eqn:Hun; simpl.
    + intros _. by apply unacknowledged_nonzero.
    + intros [Hne|Hne]; [|done]. apply unacknowledged_nonzero in Hne. congruence.
  - intros cs Hcs.
    destruct (run_inv cs s' ps Hinv' (calls_ok_retrievals ps cs Hcs))
      as (s'' & log & Hrun & _ & Hq & _).
    exists s'', log. split; [done|].
    rewrite (puts_retrievals cs Hcs s' s'' log Hrun), app_nil_r, Hqueue in Hq.
    split.
    + exists (_reportQueue s''). done.
    + rewrite <- Hlen, Hq, length_app. lia.
Qed.

Lemma state_after_inv cs : calls_ok [] cs → inv (state_after cs) (constructed cs).
Proof.
  intros Hok. destruct (run_inv cs init [] inv_init Hok) as (s & log & Hrun & Hinv & _).
  unfold state_after. by rewrite Hrun.
Qed.

Lemma calls_ok_flood n : calls_ok [] (flood n).
Proof.
  unfold flood. simpl. split; [compute_done|]. split; [compute_done|].
  induction (N.to_nat n) as [|m IH]; simpl; [done|].
  split; [compute_done | exact IH].
Qed.

Lemma constructed_flood n : constructed (flood n) = [10%nat; 20%nat].
Proof.
  unfold flood. simpl. f_equal. f_equal.
  induction (N.to_nat n) as [|m IH]; simpl; [done | exact IH].
Qed.

Lemma queueReport_queue_full_witness :
  ∃ s' me',
    queueReport 20%nat LOCO_STOP 1 7 (state_after (flood 16)) = Some s' ∧
    _reportQueue s' = _reportQueue (state_after (flood 16)) ∧
    _queueFullCount s' = incr_uint16 (_queueFullCount (state_after (flood 16))) ∧
    heap s' !! 20%nat = Some me' ∧
    timeStampIn (_lastRep me') ≠ 0.
Proof.
  assert (Hinv : inv (state_after (flood 16)) [10%nat; 20%nat]).
  { rewrite <- (constructed_flood 16). apply state_after_inv, calls_ok_flood. }
  destruct (queueReport_queue_full 20%nat LOCO_STOP 1 7 (state_after (flood 16))
              [10%nat; 20%nat]
              (mk_Reporter None 2 (_lastRep zeroed) (_overRunRep zeroed)) Hinv)
    as (s' & me' & H1 & H2 & H3 & _ & H4 & _ & H5 & _).
  - vm_compute; reflexivity.
  - vm_compute; reflexivity.
  - exists s', me'. split; [exact H1|]. split; [exact H2|]. split; [exact H3|].
    split; [exact H4|]. apply H5. right. lia.
Defined.

(** C4 as stated fails in two places.  With the queue full, reporter 20
    submits at an instant at which [micros()] returns 0: the report is
    dropped and the full counter goes from 0 to 1, but the time of
    submission of its current record is 0, not nonzero.  And after 65535
    dropped reports one more drop takes the full counter from 65535 to 0. *)
Lemma queue_full_counterexample :
  length (_reportQueue (state_after (flood 16))) = 16%nat ∧
  queueReport 20%nat LOCO_STOP 1 0 (state_after (flood 16))
    = Some (state_after (flood 16 ++ [Submit 20%nat LOCO_STOP 1 0])) ∧
  _queueFullCount (state_after (flood 16 ++ [Submit 20%nat LOCO_STOP 1 0])) = 1 ∧
  (timeStampIn <$> (_lastRep <$>
     heap (state_after (flood 16 ++ [Submit 20%nat LOCO_STOP 1 0])) !! 20%nat)) = Some 0 ∧
  length (_reportQueue (state_after (flood 65551))) = 16%nat ∧
  _queueFullCount (state_after (flood 65551)) = 65535 ∧
  _queueFullCount (state_after (flood 65551 ++ [Submit 20%nat LOCO_STOP 1 7])) = 0.
Proof. by_running. Qed.

(** C10, amended. For a reporter whose current record has a nonzero time
    of submission the choice of the record looks at that time only, so
    whatever the overrun record holds and whether or not a pointer to it
    is still queued, every further submission goes through the overrun
    record: the current record stays as it is, the overrun record holds
    what the last submission wrote, and a pointer to the overrun record
    is appended to the queue for each submission made while the queue
    holds fewer than 16 pointers, and for no other. *)
Theorem overrun_record_reused this (l : list (EventType * Z * N)) :
  ∀ s me,
    heap s !! this = Some me →
    timeStampIn (_lastRep me) ≠ 0 →
    (∀ x, chosen (set_overRunRep x me) = OverRunRep) ∧
    ∃ s' log me',
      run (submissions this l) s = Some (s', log) ∧
      heap s' !! this = Some me' ∧
      _lastRep me' = _lastRep me ∧
      _overRunRep me' = match last l with
                        | Some x => overrun_record this x.1.1 x.2
                        | None => _overRunRep me
                        end ∧
      _reportQueue s' =
        _reportQueue s ++
        replicate (length l `min` (Queue.capacity - length (_reportQueue s)))
                  (this, OverRunRep).
Proof.
  induction l as [|[[k i] t] l IH]; intros s me Hme Hne;
    pose proof (proj2 (unacknowledged_nonzero me) Hne) as Hun;
    (split; [intros x; unfold chosen, unacknowledged in *; simpl; by rewrite Hun|]).
  - exists s, [], me. simpl. by rewrite app_nil_r.
  - unfold submissions. cbn [fmap list_fmap run step]. simpl.
    rewrite Hme. simpl. rewrite (queueReport_eq this k i t s me Hme). simpl.
    rewrite Hun. unfold chosen at 1. rewrite Hun.
    set (me1 := set_overRunRep (overrun_record this k t) me).
    set (s1 := mk_State _ _ _ _ _ _ _).
    destruct (IH s1 me1) as (_ & s' & log & me' & Hrun & Hme' & Hlast & Hover & Hq).
    { unfold s1. simpl. apply lookup_insert_eq. }
    { done. }
    unfold submissions in Hrun. rewrite Hrun. simpl.
    eexists s', _, me'. split; [done|]. split; [done|]. split; [done|].
    split.
    + rewrite Hover, last_cons. by destruct (last l).
    + rewrite Hq. unfold s1. simpl.
      destruct (full (_reportQueue s)) eqn:Hfull.
      * apply full_true_le in Hfull.
        replace (Queue.capacity - length (_reportQueue s))%nat with 0%nat by lia.
        by rewrite !Nat.min_0_r.
      * apply full_false_lt in Hfull. rewrite length_app. simpl.
        rewrite <- app_assoc. f_equal.
        replace (Queue.capacity - length (_reportQueue s))%nat
          with (S (Queue.capacity - (length (_reportQueue s) + 1)))%nat by lia.
        unfold chosen. by rewrite Hun.
Qed.

Lemma overrun_record_reused_witness :
  ∃ s' log me',
    run (submissions 10%nat [(VL53_ERR, 9%Z, 200); (ROTQ_ROT, 3%Z, 250)])
        (state_after [New 10%nat zeroed SERVO_REP; Submit 10%nat LOCO_STOP 42 100])
      = Some (s', log) ∧
    heap s' !! 10%nat = Some me' ∧
    _lastRep me' = mk_report LOCO_STOP (Some 10%nat) 100 0 42 ∧
    _overRunRep me' = overrun_record 10%nat ROTQ_ROT 250.
Proof.
  destruct (overrun_record_reused 10%nat [(VL53_ERR, 9%Z, 200); (ROTQ_ROT, 3%Z, 250)]
              (state_after [New 10%nat zeroed SERVO_REP; Submit 10%nat LOCO_STOP 42 100])
              (mk_Reporter None 1 (mk_report LOCO_STOP (Some 10%nat) 100 0 42)
                 (_overRunRep zeroed)))
    as (_ & s' & log & me' & H1 & H2 & H3 & H4 & _).
  - vm_compute; reflexivity.
  - simpl. lia.
  - exists s', log, me'. split; [exact H1|]. split; [exact H2|].
    split; [exact H3 | exact H4].
Defined.

(** C10 as stated fails.  Reporter 10 has submitted 16 reports that
    nobody retrieved, so its current record is unacknowledged and the
    queue is full; its next submission overwrites the overrun record but
    puts no further pointer into the queue. *)
Lemma overrun_not_enqueued_counterexample :
  (timeStampIn <$> (_lastRep <$> heap (state_after (flood 16)) !! 10%nat)) = Some 5 ∧
  queueReport 10%nat VL53_ERR 9 200 (state_after (flood 16))
    = Some (state_after (flood 16 ++ [Submit 10%nat VL53_ERR 9 200])) ∧
  (_overRunRep <$> heap (state_after (flood 16 ++ [Submit 10%nat VL53_ERR 9 200])) !! 10%nat)
    = Some (overrun_record 10%nat VL53_ERR 200) ∧
  _reportQueue (state_after (flood 16 ++ [Submit 10%nat VL53_ERR 9 200]))
    = _reportQueue (state_after (flood 16)) ∧
  length (_reportQueue (state_after (flood 16))) = 16%nat.
Proof. by_running. Qed.

(** ** The two counters *)

Lemma enchain_counters this s s1 :
  enchain this s = Some s1 →
  _overRunCount s1 = _overRunCount s ∧ _queueFullCount s1 = _queueFullCount s.
Proof.
  unfold enchain. destruct (_firstReporter s); simpl.
  - destruct (_lastInstantiated s) as [l|]; simpl; [|done].
    unfold _link. destruct (heap s !! l); simpl; [|done]. by intros [= <-].
  - by intros [= <-].
Qed.

Lemma constructors_counters this raw ty s s' :
  (Reporter_ctor this raw ty s = Some s' ∨
   ∃ id, Reporter_ctor_id this raw ty id s = Some s') →
  _overRunCount s' = _overRunCount s ∧ _queueFullCount s' = _queueFullCount s.
Proof.
  intros [H|[id H]]; revert H.
  - unfold Reporter_ctor. case_decide; [done|].
    assert (Hfresh : heap s !! this = None).
    { destruct (heap s !! this) eqn:E; [|done]. exfalso. eauto. }
    pose proof (Reporter_ctor_eq this raw ty s Hfresh) as Heq.
    unfold Reporter_ctor in Heq. rewrite decide_False in Heq by done.
    rewrite Heq. destruct (enchain this s) as [s1|] eqn:Hs1; simpl; [|done].
    intros [= <-]. simpl. by apply enchain_counters in Hs1.
  - unfold Reporter_ctor_id. case_decide; [done|].
    assert (Hfresh : heap s !! this = None).
    { destruct (heap s !! this) eqn:E; [|done]. exfalso. eauto. }
    pose proof (Reporter_ctor_id_eq this raw ty id s Hfresh) as Heq.
    unfold Reporter_ctor_id in Heq. rewrite decide_False in Heq by done.
    rewrite Heq. destruct (enchain this s) as [s1|] eqn:Hs1; simpl; [|done].
    intros [= <-]. simpl. by apply enchain_counters in Hs1.
Qed.

Lemma incr_uint16_bounds n : n < 65535 → n ≤ incr_uint16 n ≤ n + 1.
Proof. intros Hn. rewrite incr_uint16_small by done. lia. Qed.

(** C7, amended. Every call that returns leaves each counter as it was or
    incremented modulo 2^16: the overrun counter is incremented exactly by
    a submission of a reporter whose current record is unacknowledged, the
    full counter exactly by a submission made when the queue holds 16
    pointers, and no constructor or retrieval changes either.  A counter
    below 65535 therefore never decreases and grows by at most 1 in a
    call; at 65535 the increment takes it to 0. *)
Theorem counters_step c s s' ev :
  step c s = Some (s', ev) →
  _overRunCount s' = (if overruns c s then incr_uint16 (_overRunCount s)
                      else _overRunCount s) ∧
  _queueFullCount s' = (if overflows c s then incr_uint16 (_queueFullCount s)
                        else _queueFullCount s) ∧
  (_overRunCount s < 65535 → _overRunCount s ≤ _overRunCount s' ≤ _overRunCount s + 1) ∧
  (_queueFullCount s < 65535 →
   _queueFullCount s ≤ _queueFullCount s' ≤ _queueFullCount s + 1) ∧
  incr_uint16 65535 = 0.
Proof.
  intros Hstep.
  assert (Hcount :
    _overRunCount s' = (if overruns c s then incr_uint16 (_overRunCount s)
                        else _overRunCount s) ∧
    _queueFullCount s' = (if overflows c s then incr_uint16 (_queueFullCount s)
                          else _queueFullCount s)).
  { destruct c as [this raw ty|this raw ty id|this k i t|rdp w t]; simpl in Hstep |- *.
    - destruct (Reporter_ctor this raw ty s) as [s1|] eqn:Hc; simpl in Hstep; [|done].
      injection Hstep as <- _. eapply constructors_counters; eauto.
    - destruct (Reporter_ctor_id this raw ty id s) as [s1|] eqn:Hc; simpl in Hstep; [|done].
      injection Hstep as <- _. eapply constructors_counters; eauto.
    - destruct (heap s !! this) as [me|] eqn:Hme; simpl in Hstep; [|done].
      rewrite (queueReport_eq this k i t s me Hme) in Hstep. simpl in Hstep.
      injection Hstep as <- _. done.
    - destruct (_reportQueue s) as [|[p sl] q] eqn:Hq.
      + rewrite (tryGetReport_nil rdp w t s Hq) in Hstep. simpl in Hstep.
        by injection Hstep as <- _.
      + unfold tryGetReport in Hstep. rewrite Hq in Hstep. simpl in Hstep.
        destruct (heap s !! p); simpl in Hstep; [|done].
        by injection Hstep as <- _. }
  destruct Hcount as [Ho Hf]. split; [done|]. split; [done|].
  split; [|split; [|done]].
  - intros Hlt. rewrite Ho. destruct (overruns c s); [by apply incr_uint16_bounds | lia].
  - intros Hlt. rewrite Hf. destruct (overflows c s); [by apply incr_uint16_bounds | lia].
Qed.

Lemma counters_step_witness :
  step (Submit 10%nat VL53_ERR 9 200)
       (state_after [New 10%nat zeroed SERVO_REP; Submit 10%nat LOCO_STOP 42 100])
    = Some (state_after [New 10%nat zeroed SERVO_REP; Submit 10%nat LOCO_STOP 42 100;
                         Submit 10%nat VL53_ERR 9 200],
            [Put (10%nat, OverRunRep)]) ∧
  _overRunCount (state_after [New 10%nat zeroed SERVO_REP; Submit 10%nat LOCO_STOP 42 100;
                              Submit 10%nat VL53_ERR 9 200])
    = (if overruns (Submit 10%nat VL53_ERR 9 200)
            (state_after [New 10%nat zeroed SERVO_REP; Submit 10%nat LOCO_STOP 42 100])
       then incr_uint16 (_overRunCount
              (state_after [New 10%nat zeroed SERVO_REP; Submit 10%nat LOCO_STOP 42 100]))
       else _overRunCount
              (state_after [New 10%nat zeroed SERVO_REP; Submit 10%nat LOCO_STOP 42 100])).
Proof.
  assert (Hstep :
    step (Submit 10%nat VL53_ERR 9 200)
         (state_after [New 10%nat zeroed SERVO_REP; Submit 10%nat LOCO_STOP 42 100])
      = Some (state_after [New 10%nat zeroed SERVO_REP; Submit 10%nat LOCO_STOP 42 100;
                           Submit 10%nat VL53_ERR 9 200],
              [Put (10%nat, OverRunRep)])).
  { vm_compute; reflexivity. }
  split; [exact Hstep|].
  exact (proj1 (counters_step _ _ _ _ Hstep)).
Defined.

(** C7 as stated fails.  Reporter 10 submits 65536 reports that nobody
    retrieves: the first is fresh, the others are overruns and the
    overrun counter stands at 65535.  Its next submission, one more
    overrun, takes the counter to 0. *)
Lemma counter_wraps_counterexample :
  _overRunCount (state_after (flood 65536)) = 65535 ∧
  queueReport 10%nat LOCO_STOP 1 5 (state_after (flood 65536))
    = Some (state_after (flood 65536 ++ [Submit 10%nat LOCO_STOP 1 5])) ∧
  _overRunCount (state_after (flood 65536 ++ [Submit 10%nat LOCO_STOP 1 5])) = 0.
Proof. by_running. Qed.

(** * Further properties *)

(** ** The fixed-point macros *)

Lemma ROUND_eq v p :
  (1 ≤ p ≤ 31)%Z →
  (long_min ≤ v + 2 ^ (p - 1) ≤ long_max)%Z →
  ROUND v p = Some ((v + 2 ^ (p - 1)) / 2 ^ p)%Z.
Proof.
  intros Hp Hsum. unfold ROUND, in_long.
  rewrite decide_True by done.
  rewrite Z.shiftl_1_l. rewrite decide_True by done. simpl.
  by rewrite Z.shiftr_div_pow2 by lia.
Qed.

Lemma pow2_double p : (1 ≤ p)%Z → (2 ^ p = 2 * 2 ^ (p - 1))%Z.
Proof.
  intros Hp. replace p with (Z.succ (p - 1)) at 1 by lia.
  rewrite Z.pow_succ_r by lia. done.
Qed.

Lemma pow2_half_pos p : (1 ≤ p)%Z → (0 < 2 ^ (p - 1))%Z.
Proof. intros Hp. apply Z.pow_pos_nonneg; lia. Qed.

(** X13. [ROUND] is defined exactly when the shift count lies in 1..31 and
    adding the half unit does not overflow; it then rounds [v / 2^p] to
    the nearest integer, a tie going upwards. *)
Theorem ROUND_nearest v p :
  (long_min ≤ v ≤ long_max)%Z →
  (is_Some (ROUND v p) ↔ (1 ≤ p ≤ 31)%Z ∧ (v + 2 ^ (p - 1) ≤ long_max)%Z) ∧
  ∀ r, ROUND v p = Some r →
       (r * 2 ^ p - 2 ^ (p - 1) ≤ v < r * 2 ^ p + 2 ^ (p - 1))%Z.
Proof.
  intros Hv. split.
  - split.
    + intros [r Hr]. unfold ROUND in Hr. case_decide as Hp; [|done].
      split; [done|]. rewrite Z.shiftl_1_l in Hr. unfold in_long in Hr.
      case_decide as Hsum; [lia | done].
    + intros [Hp Hsum]. rewrite ROUND_eq; [eauto | done |].
      pose proof (pow2_half_pos p). lia.
  - intros r Hr. unfold ROUND in Hr. case_decide as Hp; [|done].
    rewrite Z.shiftl_1_l in Hr. unfold in_long in Hr.
    case_decide as Hsum; [|done]. simpl in Hr. injection Hr as <-.
    rewrite Z.shiftr_div_pow2 by lia.
    pose proof (pow2_half_pos p ltac:(lia)) as Hh.
    rewrite (pow2_double p) by lia.
    pose proof (Z.div_mod (v + 2 ^ (p - 1)) (2 * 2 ^ (p - 1)) ltac:(lia)) as Hdm.
    pose proof (Z.mod_pos_bound (v + 2 ^ (p - 1)) (2 * 2 ^ (p - 1)) ltac:(lia)) as Hm.
    lia.
Qed.

Lemma ROUND_nearest_witness :
  (long_min ≤ -384 ≤ long_max)%Z ∧
  ROUND (-384) 8 = Some (-1)%Z ∧
  ((-1) * 2 ^ 8 - 2 ^ (8 - 1) ≤ -384 < (-1) * 2 ^ 8 + 2 ^ (8 - 1))%Z.
Proof.
  assert (Hv : (long_min ≤ -384 ≤ long_max)%Z) by (unfold long_min, long_max; lia).
  split; [exact Hv|]. split; [reflexivity|].
  apply (proj2 (ROUND_nearest (-384) 8 Hv) (-1)%Z). reflexivity.
Defined.

(** X14. Rounding a whole number of units gives that number back: scaling an
    integer by [p] fraction bits and rounding the fraction out again is
    the identity, as long as the scaled value leaves room for the half
    unit that [ROUND] adds. *)
Theorem ROUND_scaled k p :
  (1 ≤ p ≤ 31)%Z →
  (long_min ≤ k * 2 ^ p)%Z →
  (k * 2 ^ p + 2 ^ (p - 1) ≤ long_max)%Z →
  ROUND (k * 2 ^ p) p = Some k.
Proof.
  intros Hp Hlo Hhi.
  pose proof (pow2_half_pos p ltac:(lia)) as Hh.
  rewrite ROUND_eq by (try done; lia). f_equal.
  rewrite (pow2_double p) by lia.
  symmetry. apply (Z.div_unique_pos _ _ _ (2 ^ (p - 1))); lia.
Qed.

Lemma ROUND_scaled_witness :
  ROUND (Z.shiftl (-1000) 8) 8 = Some (-1000)%Z.
Proof.
  apply (ROUND_scaled (-1000) 8); unfold long_min, long_max; simpl; lia.
Defined.

(** X15. [ROUND] never reverses the order of two values it is defined on. *)
Theorem ROUND_monotone v v' p r r' :
  (v ≤ v')%Z →
  ROUND v p = Some r →
  ROUND v' p = Some r' →
  (r ≤ r')%Z.
Proof.
  intros Hle Hr Hr'. unfold ROUND in *. case_decide as Hp; [|done].
  rewrite Z.shiftl_1_l in Hr, Hr'. unfold in_long in *.
  repeat case_decide; try done. simpl in *.
  injection Hr as <-. injection Hr' as <-.
  rewrite !Z.shiftr_div_pow2 by lia.
  apply Z.div_le_mono; [apply Z.pow_pos_nonneg; lia | lia].
Qed.

Lemma ROUND_monotone_witness :
  (383 ≤ 384)%Z ∧ ROUND 383 8 = Some 1%Z ∧ ROUND 384 8 = Some 2%Z ∧ (1 ≤ 2)%Z.
Proof.
  assert (H : (383 ≤ 384)%Z) by lia.
  split; [exact H|]. split; [reflexivity|]. split; [reflexivity|].
  exact (ROUND_monotone 383 384 8 1 2 H eq_refl eq_refl).
Defined.

(** The value [ROUND] takes off lies between 0 and the value rounded, so
    the subtraction in [LP_FILTER] cannot overflow. *)
Lemma ROUND_between y n r :
  ROUND y n = Some r →
  (0 ≤ y → 0 ≤ r ≤ y)%Z ∧ (y ≤ 0 → y ≤ r ≤ 0)%Z.
Proof.
  intros Hr.
  assert (Hn : (1 ≤ n ≤ 31)%Z) by (unfold ROUND in Hr; by case_decide).
  assert (Hy : (long_min ≤ y + 2 ^ (n - 1) ≤ long_max)%Z).
  { unfold ROUND in Hr. rewrite decide_True in Hr by done.
    rewrite Z.shiftl_1_l in Hr. unfold in_long in Hr. by case_decide. }
  rewrite ROUND_eq in Hr by done. injection Hr as <-.
  pose proof (pow2_half_pos n ltac:(lia)) as Hh.
  rewrite (pow2_double n) by lia.
  set (h := (2 ^ (n - 1))%Z) in *.
  pose proof (Z.div_mod (y + h) (2 * h) ltac:(lia)) as Hdm.
  pose proof (Z.mod_pos_bound (y + h) (2 * h) ltac:(lia)) as Hm.
  set (q := ((y + h) / (2 * h))%Z) in *.
  set (m := ((y + h) mod (2 * h))%Z) in *.
  split; intros Hsign; split; nia.
Qed.

(** X16. With a constant input [x] the filter rests exactly on the outputs
    that [ROUND] takes back to [x]: the band of width [2^n] around
    [x * 2^n], the steady state with the gain of [2^n]. *)
Theorem LP_FILTER_steady x y n :
  (long_min ≤ y ≤ long_max)%Z →
  LP_FILTER x y n = Some y ↔ ROUND y n = Some x.
Proof.
  intros Hy. unfold LP_FILTER. split.
  - destruct (ROUND y n) as [r|]; simpl; [|done].
    unfold in_long. case_decide; simpl; [|done]. case_decide; [|done].
    intros [= Heq]. f_equal. lia.
  - intros Hr. rewrite Hr. simpl.
    destruct (ROUND_between y n x Hr) as [Hpos Hneg].
    unfold in_long. rewrite decide_True by (unfold long_min, long_max in *; lia).
    simpl. rewrite decide_True by lia. f_equal. lia.
Qed.

Lemma LP_FILTER_steady_witness :
  (long_min ≤ 1300 ≤ long_max)%Z ∧
  ROUND 1300 8 = Some 5%Z ∧
  LP_FILTER 5 1300 8 = Some 1300%Z.
Proof.
  assert (Hy : (long_min ≤ 1300 ≤ long_max)%Z) by (unfold long_min, long_max; lia).
  split; [exact Hy|]. split; [reflexivity|].
  apply (LP_FILTER_steady 5 1300 8 Hy). reflexivity.
Defined.

(** X17. One step of the filter with input [x] is defined whenever the
    rounding of [y] is and the target [x * 2^n] is a [long]; the new
    output lies between the old output and the target, never beyond it,
    and it moves strictly towards the target from anywhere outside the
    band of half a unit around it. *)
Theorem LP_FILTER_approaches x y n :
  (1 ≤ n ≤ 31)%Z →
  (long_min ≤ y)%Z →
  (y + 2 ^ (n - 1) ≤ long_max)%Z →
  (long_min ≤ x * 2 ^ n ≤ long_max)%Z →
  ∃ y',
    LP_FILTER x y n = Some y' ∧
    (x * 2 ^ n ≤ y → x * 2 ^ n ≤ y' ≤ y)%Z ∧
    (y ≤ x * 2 ^ n → y ≤ y' ≤ x * 2 ^ n)%Z ∧
    (x * 2 ^ n + 2 ^ (n - 1) ≤ y → y' < y)%Z ∧
    (y < x * 2 ^ n - 2 ^ (n - 1) → y < y')%Z.
Proof.
  intros Hn Hlo Hhi Hx.
  pose proof (pow2_half_pos n ltac:(lia)) as Hh.
  assert (Hr : ROUND y n = Some ((y + 2 ^ (n - 1)) / 2 ^ n)%Z).
  { apply ROUND_eq; [done | lia]. }
  destruct (ROUND_between y n _ Hr) as [Hpos Hneg].
  revert Hr Hpos Hneg Hx. rewrite (pow2_double n) by lia.
  set (h := (2 ^ (n - 1))%Z) in *.
  pose proof (Z.div_mod (y + h) (2 * h) ltac:(lia)) as Hdm.
  pose proof (Z.mod_pos_bound (y + h) (2 * h) ltac:(lia)) as Hm.
  set (r := ((y + h) / (2 * h))%Z) in *.
  set (m := ((y + h) mod (2 * h))%Z) in *.
  intros Hr Hpos Hneg Hx.
  assert (Hbetween : (x * (2 * h) ≤ y → x * (2 * h) ≤ y - r + x ≤ y)%Z ∧
                     (y ≤ x * (2 * h) → y ≤ y - r + x ≤ x * (2 * h))%Z).
  { split; intros Hside; split; nia. }
  exists (y - r + x)%Z. split; [|split; [|split; [|split]]].
  - unfold LP_FILTER. rewrite Hr. simpl. unfold in_long.
    rewrite decide_True by (unfold long_min, long_max in *; lia). simpl.
    rewrite decide_True; [done|].
    destruct Hbetween as [Ha Hb].
    destruct (Z.le_ge_cases (x * (2 * h)) y); unfold long_min, long_max in *; lia.
  - apply Hbetween.
  - apply Hbetween.
  - intros Hfar. nia.
  - intros Hfar. nia.
Qed.

Lemma LP_FILTER_approaches_witness :
  ∃ y', LP_FILTER 5 2000 8 = Some y' ∧ (5 * 2 ^ 8 ≤ y' ≤ 2000)%Z ∧ (y' < 2000)%Z.
Proof.
  destruct (LP_FILTER_approaches 5 2000 8) as (y' & H1 & H2 & _ & H3 & _);
    try (unfold long_min, long_max; simpl; lia).
  exists y'. split; [exact H1|]. split; [apply H2; simpl; lia | apply H3; simpl; lia].
Defined.

(** ** What a single call changes *)

Lemma enchain_frame this0 s s1 :
  enchain this0 s = Some s1 →
  _reportQueue s1 = _reportQueue s ∧
  _lastId s1 = _lastId s ∧
  ∀ p me, heap s !! p = Some me →
          ∃ me', heap s1 !! p = Some me' ∧ _id me' = _id me ∧
                 _lastRep me' = _lastRep me ∧ _overRunRep me' = _overRunRep me.
Proof.
  unfold enchain. destruct (_firstReporter s); simpl.
  - destruct (_lastInstantiated s) as [l|]; simpl; [|done].
    unfold _link. destruct (heap s !! l) as [mel|] eqn:Hl; simpl; [|done].
    intros [= <-]. simpl. split; [done|]. split; [done|]. intros p me Hp.
    destruct (decide (l = p)) as [->|Hne].
    + rewrite lookup_insert_eq. eexists. split; [done|].
      rewrite Hl in Hp. injection Hp as <-. done.
    + rewrite lookup_insert_ne by done. eauto.
  - intros [= <-]. simpl. eauto 10.
Qed.

(** A constructor that returns ran in free storage, left the queue alone
    and kept id and records of every reporter that lived already. *)
Lemma constructors_keep this0 raw ty s s' :
  (Reporter_ctor this0 raw ty s = Some s' ∨
   ∃ id, Reporter_ctor_id this0 raw ty id s = Some s') →
  heap s !! this0 = None ∧
  _reportQueue s' = _reportQueue s ∧
  ∀ p me, heap s !! p = Some me →
          ∃ me', heap s' !! p = Some me' ∧ _id me' = _id me ∧
                 _lastRep me' = _lastRep me ∧ _overRunRep me' = _overRunRep me.
Proof.
  intros Hc.
  assert (Hfresh : heap s !! this0 = None).
  { destruct (heap s !! this0) eqn:E; [|done]. exfalso.
    destruct Hc as [Hc|[id Hc]]; revert Hc;
      [unfold Reporter_ctor | unfold Reporter_ctor_id];
      rewrite decide_True by (rewrite E; eauto); done. }
  split; [done|].
  assert (Hs1 : ∃ s1 me0, enchain this0 s = Some s1 ∧
                          heap s' = <[this0 := me0]> (heap s1) ∧
                          _reportQueue s' = _reportQueue s1).
  { destruct Hc as [Hc|[id Hc]].
    - rewrite Reporter_ctor_eq in Hc by done.
      destruct (enchain this0 s) as [s1|]; simpl in Hc; [|done].
      injection Hc as <-. eauto.
    - rewrite Reporter_ctor_id_eq in Hc by done.
      destruct (enchain this0 s) as [s1|]; simpl in Hc; [|done].
      injection Hc as <-. eauto. }
  destruct Hs1 as (s1 & me0 & Hs1 & Hheap & Hq).
  destruct (enchain_frame this0 s s1 Hs1) as (Hq1 & _ & Hkeep).
  split; [congruence|]. intros p me Hp.
  rewrite Hheap, lookup_insert_ne by congruence. by apply Hkeep.
Qed.

(** The effect of one call on one record of one live reporter. *)
Lemma step_slot c s s' ev p me sl :
  step c s = Some (s', ev) →
  heap s !! p = Some me →
  ∃ me', heap s' !! p = Some me' ∧ _id me' = _id me ∧
    ((first_got (p, sl) ev = None ∧ get_slot sl me' = get_slot sl me) ∨
     (∃ k i t, c = Submit p k i t ∧ sl = chosen me ∧
               first_got (p, sl) ev = None ∧
               get_slot sl me' = if unacknowledged me then overrun_record p k t
                                 else fresh_record p k i t) ∨
     (∃ rdp w t, c = Retrieve rdp w t ∧
                 head (_reportQueue s) = Some (p, sl) ∧
                 get_slot sl me' = released (get_slot sl me) t ∧
                 ev = [Got (p, sl) (copied (get_slot sl me) t)])).
Proof.
  intros Hstep Hp.
  destruct c as [this raw ty|this raw ty id|this k i t|rdp w t]; simpl in Hstep.
  - destruct (Reporter_ctor this raw ty s) as [s1|] eqn:Hc; simpl in Hstep; [|done].
    injection Hstep as <- <-.
    destruct (constructors_keep this raw ty s s1) as (_ & _ & Hkeep); [eauto|].
    destruct (Hkeep p me Hp) as (me' & Hme' & Hid & Hl & Ho).
    exists me'. split; [done|]. split; [done|]. left. by destruct sl.
  - destruct (Reporter_ctor_id this raw ty id s) as [s1|] eqn:Hc; simpl in Hstep; [|done].
    injection Hstep as <- <-.
    destruct (constructors_keep this raw ty s s1) as (_ & _ & Hkeep); [eauto|].
    destruct (Hkeep p me Hp) as (me' & Hme' & Hid & Hl & Ho).
    exists me'. split; [done|]. split; [done|]. left. by destruct sl.
  - destruct (heap s !! this) as [me0|] eqn:Hme0; simpl in Hstep; [|done].
    rewrite (queueReport_eq this k i t s me0 Hme0) in Hstep. simpl in Hstep.
    injection Hstep as <- <-. simpl.
    assert (Hnone : first_got (p, sl)
              (if full (_reportQueue s) then [] else [Put (this, chosen me0)]) = None)
      by (by destruct (full (_reportQueue s))).
    destruct (decide (this = p)) as [->|Hne].
    + rewrite Hp in Hme0. injection Hme0 as <-.
      rewrite lookup_insert_eq. eexists. split; [done|].
      unfold chosen in *. destruct (unacknowledged me) eqn:Hun; simpl.
      * split; [done|]. destruct sl; [by left|]. right; left. eauto 10.
      * split; [done|]. destruct sl; [|by left]. right; left. eauto 10.
    + rewrite lookup_insert_ne by done. exists me. eauto.
  - destruct (_reportQueue s) as [|[a sl'] q] eqn:Hq.
    + rewrite (tryGetReport_nil rdp w t s Hq) in Hstep. simpl in Hstep.
      injection Hstep as <- <-. exists me. eauto.
    + unfold tryGetReport in Hstep. rewrite Hq in Hstep. simpl in Hstep.
      destruct (heap s !! a) as [owner|] eqn:Ha; simpl in Hstep; [|done].
      injection Hstep as <- <-. simpl.
      destruct (decide (a = p)) as [->|Hne].
      * rewrite Hp in Ha. injection Ha as <-.
        rewrite lookup_insert_eq. eexists. split; [done|].
        split; [by destruct sl'|].
        destruct (decide (sl' = sl)) as [->|Hsl].
        -- right; right. exists rdp, w, t. split; [done|]. split; [done|].
           split; [by destruct sl|done].
        -- left. rewrite decide_False by congruence. by destruct sl, sl'.
      * rewrite lookup_insert_ne by done. exists me.
        rewrite decide_False by congruence. eauto.
Qed.

(** The effect of one call on the queue. *)
Lemma step_queue c s s' ev :
  step c s = Some (s', ev) →
  _reportQueue s ++ puts ev = gots ev ++ _reportQueue s' ∧
  (puts ev = [] ∨
   ∃ this k i t me, c = Submit this k i t ∧ heap s !! this = Some me ∧
                    full (_reportQueue s) = false ∧
                    puts ev = [(this, chosen me)]) ∧
  (gots ev = [] ∨ ∃ rp, head (_reportQueue s) = Some rp ∧ gots ev = [rp]).
Proof.
  intros Hstep.
  destruct c as [this raw ty|this raw ty id|this k i t|rdp w t]; simpl in Hstep.
  - destruct (Reporter_ctor this raw ty s) as [s1|] eqn:Hc; simpl in Hstep; [|done].
    injection Hstep as <- <-.
    destruct (constructors_keep this raw ty s s1) as (_ & Hq & _); [eauto|].
    simpl. rewrite Hq, app_nil_r. eauto.
  - destruct (Reporter_ctor_id this raw ty id s) as [s1|] eqn:Hc; simpl in Hstep; [|done].
    injection Hstep as <- <-.
    destruct (constructors_keep this raw ty s s1) as (_ & Hq & _); [eauto|].
    simpl. rewrite Hq, app_nil_r. eauto.
  - destruct (heap s !! this) as [me0|] eqn:Hme0; simpl in Hstep; [|done].
    rewrite (queueReport_eq this k i t s me0 Hme0) in Hstep. simpl in Hstep.
    injection Hstep as <- <-. simpl.
    destruct (full (_reportQueue s)) eqn:Hfull; simpl.
    + rewrite app_nil_r. eauto.
    + split; [done|]. split; [|by left]. right. eauto 10.
  - destruct (_reportQueue s) as [|[a sl'] q] eqn:Hq.
    + rewrite (tryGetReport_nil rdp w t s Hq) in Hstep. simpl in Hstep.
      injection Hstep as <- <-. simpl. rewrite Hq. eauto.
    + unfold tryGetReport in Hstep. rewrite Hq in Hstep. simpl in Hstep.
      destruct (heap s !! a) as [owner|] eqn:Ha; simpl in Hstep; [|done].
      injection Hstep as <- <-. simpl. rewrite app_nil_r.
      split; [done|]. split; [by left|]. right. eauto.
Qed.

(** X1. Whatever call returns, the id of a live reporter stays, and one of
    its records differs afterwards only if the call was a submission by
    that reporter which picked the record, or a retrieval at a moment
    when the queue started with a pointer to the record. *)
Theorem record_written_by_owner_or_consumer c s s' ev p me sl :
  step c s = Some (s', ev) →
  heap s !! p = Some me →
  ∃ me', heap s' !! p = Some me' ∧
         _id me' = _id me ∧
         (get_slot sl me' ≠ get_slot sl me →
          (∃ k i t, c = Submit p k i t ∧ sl = chosen me) ∨
          (∃ rdp w t, c = Retrieve rdp w t ∧ head (_reportQueue s) = Some (p, sl))).
Proof.
  intros Hstep Hp.
  destruct (step_slot c s s' ev p me sl Hstep Hp)
    as (me' & Hme' & Hid & [[_ Hsame]|[(k & i & t & -> & -> & _)|(rdp & w & t & -> & Hhd & _)]]).
  - exists me'. split; [done|]. split; [done|]. intros Hne. done.
  - exists me'. split; [done|]. split; [done|]. intros _. left. eauto.
  - exists me'. split; [done|]. split; [done|]. intros _. right. eauto.
Qed.

Lemma record_written_by_owner_or_consumer_witness :
  ∃ me', heap (state_after (sample_calls ++ [Submit 20%nat ROTQ_ROT 3 700])) !! 10%nat
           = Some me' ∧
         _id me' = 1 ∧
         _lastRep me' = mk_report LOCO_STOP (Some 10%nat) 0 300 42.
Proof.
  destruct (record_written_by_owner_or_consumer (Submit 20%nat ROTQ_ROT 3 700)
              (state_after sample_calls)
              (state_after (sample_calls ++ [Submit 20%nat ROTQ_ROT 3 700]))
              [Put (20%nat, LastRep)] 10%nat
              (mk_Reporter (Some 20%nat) 1
                 (mk_report LOCO_STOP (Some 10%nat) 0 300 42)
                 (mk_report REPORT_OVERRUN (Some 10%nat) 0 500 5))
              LastRep)
    as (me' & H1 & H2 & H3).
  - vm_compute; reflexivity.
  - vm_compute; reflexivity.
  - exists me'. split; [exact H1|]. split; [exact H2|].
    destruct (decide (get_slot LastRep me'
                      = mk_report LOCO_STOP (Some 10%nat) 0 300 42)) as [Heq|Hne];
      [exact Heq|].
    exfalso. destruct (H3 Hne) as [(k & i & t & Hc & _)|(rdp & w & t & Hc & _)];
      discriminate Hc.
Defined.

(** ** Pending reports *)

Lemma first_got_app rp e1 e2 :
  first_got rp (e1 ++ e2) =
    match first_got rp e1 with Some r => Some r | None => first_got rp e2 end.
Proof.
  induction e1 as [|[rp'|rp' r] e1 IH]; simpl; [done|done|].
  by case_decide.
Qed.

Lemma run_cons_inv c cs s s' log :
  run (c :: cs) s = Some (s', log) →
  ∃ s1 e1 e2, step c s = Some (s1, e1) ∧ run cs s1 = Some (s', e2) ∧ log = e1 ++ e2.
Proof.
  cbn [run]. destruct (step c s) as [[s1 e1]|] eqn:Hs; simpl; [|done].
  destruct (run cs s1) as [[s2 e2]|] eqn:Hr; simpl; [|done].
  intros [= <- <-]. eauto 10.
Qed.

Lemma run_unacknowledged cs :
  ∀ s s' log this me,
    run cs s = Some (s', log) →
    heap s !! this = Some me →
    unacknowledged me = true →
    match first_got (this, LastRep) log with
    | Some r => ∃ t, r = copied (_lastRep me) t
    | None => ∃ me', heap s' !! this = Some me' ∧ _lastRep me' = _lastRep me
    end.
Proof.
  induction cs as [|c cs IH]; intros s s' log this me Hrun Hme Hun.
  - simpl in Hrun. injection Hrun as <- <-. simpl. eauto.
  - apply run_cons_inv in Hrun as (s1 & e1 & e2 & Hstep & Hrun & ->).
    rewrite first_got_app.
    destruct (step_slot c s s1 e1 this me LastRep Hstep Hme)
      as (me1 & Hme1 & _ & [[Hnone Hsame]|[(k & i & t & _ & Hsl & _)|(rdp & w & t & _ & _ & _ & ->)]]).
    + rewrite Hnone. simpl in Hsame.
      assert (Hun1 : unacknowledged me1 = true)
        by (unfold unacknowledged in *; by rewrite Hsame).
      specialize (IH s1 s' e2 this me1 Hrun Hme1 Hun1). by rewrite Hsame in IH.
    + unfold chosen in Hsl. by rewrite Hun in Hsl.
    + simpl. rewrite decide_True by done. eauto.
Qed.

(** X2. A current record with a nonzero time of submission is safe until it
    is retrieved: whatever admissible calls follow (submissions by its
    own or other reporters, retrievals, constructions), the first
    retrieval of a pointer to it returns its type, source, information and
    time of submission, and as long as no such retrieval happened the
    record is unchanged. *)
Theorem unacknowledged_record_intact cs s ps this me :
  inv s ps →
  calls_ok ps cs →
  heap s !! this = Some me →
  timeStampIn (_lastRep me) ≠ 0 →
  ∃ s' log,
    run cs s = Some (s', log) ∧
    match first_got (this, LastRep) log with
    | Some r => repType r = repType (_lastRep me) ∧
                source r = source (_lastRep me) ∧
                info r = info (_lastRep me) ∧
                timeStampIn r = timeStampIn (_lastRep me)
    | None => ∃ me', heap s' !! this = Some me' ∧ _lastRep me' = _lastRep me
    end.
Proof.
  intros Hinv Hok Hme Hne. apply unacknowledged_nonzero in Hne.
  destruct (run_inv cs s ps Hinv Hok) as (s' & log & Hrun & _).
  exists s', log. split; [done|].
  pose proof (run_unacknowledged cs s s' log this me Hrun Hme Hne) as H.
  destruct (first_got (this, LastRep) log); [|done].
  by destruct H as [t ->].
Qed.

Lemma unacknowledged_record_intact_witness :
  ∃ s' log,
    run [Submit 20%nat ROTQ_ROT 3 350; Submit 10%nat VL53_ERR 9 400;
         Retrieve (_lastRep zeroed) 0 500]
        (state_after [New 10%nat zeroed SERVO_REP; New 20%nat zeroed VL53_REP;
                      Submit 10%nat LOCO_STOP 42 100]) = Some (s', log) ∧
    match first_got (10%nat, LastRep) log with
    | Some r => repType r = LOCO_STOP ∧ source r = Some 10%nat ∧
                info r = 42%Z ∧ timeStampIn r = 100
    | None => ∃ me', heap s' !! 10%nat = Some me' ∧
                     _lastRep me' = mk_report LOCO_STOP (Some 10%nat) 100 0 42
    end.
Proof.
  apply (unacknowledged_record_intact
           [Submit 20%nat ROTQ_ROT 3 350; Submit 10%nat VL53_ERR 9 400;
            Retrieve (_lastRep zeroed) 0 500]
           (state_after [New 10%nat zeroed SERVO_REP; New 20%nat zeroed VL53_REP;
                         Submit 10%nat LOCO_STOP 42 100])
           [10%nat; 20%nat] 10%nat
           (mk_Reporter (Some 20%nat) 1 (mk_report LOCO_STOP (Some 10%nat) 100 0 42)
              (_overRunRep zeroed))).
  - apply (state_after_inv [New 10%nat zeroed SERVO_REP; New 20%nat zeroed VL53_REP;
                            Submit 10%nat LOCO_STOP 42 100]).
    simpl. repeat split; compute_done.
  - simpl. repeat split; compute_done.
  - vm_compute; reflexivity.
  - simpl. lia.
Defined.

Lemma run_wedged cs :
  ∀ s s' log this me,
    run cs s = Some (s', log) →
    heap s !! this = Some me →
    unacknowledged me = true →
    (this, LastRep) ∉ _reportQueue s →
    (∃ me', heap s' !! this = Some me' ∧ _lastRep me' = _lastRep me) ∧
    ((this, LastRep) ∉ gots log) ∧
    ((this, LastRep) ∉ puts log) ∧
    ((this, LastRep) ∉ _reportQueue s').
Proof.
  induction cs as [|c cs IH]; intros s s' log this me Hrun Hme Hun Hq.
  - simpl in Hrun. injection Hrun as <- <-. simpl.
    split; [eauto|]. split; [apply not_elem_of_nil|]. split; [apply not_elem_of_nil|done].
  - apply run_cons_inv in Hrun as (s1 & e1 & e2 & Hstep & Hrun & ->).
    destruct (step_queue c s s1 e1 Hstep) as (Heq & Hputs & Hgots).
    assert (Hp1 : (this, LastRep) ∉ puts e1).
    { destruct Hputs as [->|(p & k & i & t & me0 & -> & Hme0 & _ & ->)];
        [apply not_elem_of_nil|].
      intros Hin%list_elem_of_singleton. injection Hin as Hthis Hsl. subst p.
      rewrite Hme in Hme0. injection Hme0 as <-.
      unfold chosen in Hsl. by rewrite Hun in Hsl. }
    assert (Hg1 : (this, LastRep) ∉ gots e1).
    { destruct Hgots as [->|(rp & Hhd & ->)]; [apply not_elem_of_nil|].
      intros Hrp%list_elem_of_singleton. subst rp. apply Hq.
      destruct (_reportQueue s); simpl in Hhd; [done|].
      injection Hhd as ->. apply list_elem_of_here. }
    assert (Hq1 : (this, LastRep) ∉ _reportQueue s1).
    { intros Hin. assert (Hin' : (this, LastRep) ∈ _reportQueue s ++ puts e1).
      { rewrite Heq. apply elem_of_app. by right. }
      apply elem_of_app in Hin' as [?|?]; done. }
    destruct (step_slot c s s1 e1 this me LastRep Hstep Hme)
      as (me1 & Hme1 & _ & [[_ Hsame]|[(k & i & t & _ & Hsl & _)|(rdp & w & t & _ & Hhd & _)]]).
    + simpl in Hsame.
      assert (Hun1 : unacknowledged me1 = true)
        by (unfold unacknowledged in *; by rewrite Hsame).
      destruct (IH s1 s' e2 this me1 Hrun Hme1 Hun1 Hq1) as (Hrec & Hg2 & Hp2 & Hq2).
      rewrite Hsame in Hrec. split; [done|].
      unfold gots, puts in *. rewrite !omap_app.
      split; [|split; [|done]]; intros [?|?]%elem_of_app; done.
    + unfold chosen in Hsl. by rewrite Hun in Hsl.
    + exfalso. apply Hq. destruct (_reportQueue s); simpl in Hhd; [done|].
      injection Hhd as ->. apply list_elem_of_here.
Qed.

(** X3. A reporter whose current record is unacknowledged while no pointer to
    it is queued (the state a report dropped on a full queue leaves
    behind) stays so for good: whatever admissible calls follow, no
    pointer to the current record is ever put or got again and the record
    keeps what it holds, so every later submission of the reporter is an
    overrun. *)
Theorem dropped_report_blocks_reporter cs s ps this me :
  inv s ps →
  calls_ok ps cs →
  heap s !! this = Some me →
  timeStampIn (_lastRep me) ≠ 0 →
  (this, LastRep) ∉ _reportQueue s →
  ∃ s' log me',
    run cs s = Some (s', log) ∧
    heap s' !! this = Some me' ∧
    _lastRep me' = _lastRep me ∧
    chosen me' = OverRunRep ∧
    ((this, LastRep) ∉ gots log) ∧
    ((this, LastRep) ∉ puts log) ∧
    ((this, LastRep) ∉ _reportQueue s').
Proof.
  intros Hinv Hok Hme Hne Hq. apply unacknowledged_nonzero in Hne.
  destruct (run_inv cs s ps Hinv Hok) as (s' & log & Hrun & _).
  destruct (run_wedged cs s s' log this me Hrun Hme Hne Hq)
    as ((me' & Hme' & Hsame) & Hg & Hp & Hq').
  exists s', log, me'. split; [done|]. split; [done|]. split; [done|].
  split; [|done]. unfold chosen, unacknowledged in *. by rewrite Hsame, Hne.
Qed.

Lemma flood_then_drop_ok : calls_ok [] flood_then_drop.
Proof. unfold flood_then_drop, flood. simpl. repeat split; compute_done. Qed.

Lemma dropped_report_blocks_reporter_witness :
  ∃ s' log me',
    run [Retrieve (_lastRep zeroed) 0 700; Submit 20%nat VL53_ERR 9 800;
         Retrieve (_lastRep zeroed) 0 900]
        (state_after flood_then_drop) = Some (s', log) ∧
    heap s' !! 20%nat = Some me' ∧
    _lastRep me' = mk_report VL53_RANGE_CLOSE (Some 20%nat) 600 0 7 ∧
    (20%nat, LastRep) ∉ gots log.
Proof.
  destruct (dropped_report_blocks_reporter
              [Retrieve (_lastRep zeroed) 0 700; Submit 20%nat VL53_ERR 9 800;
               Retrieve (_lastRep zeroed) 0 900]
              (state_after flood_then_drop) [10%nat; 20%nat] 20%nat
              (mk_Reporter None 2 (mk_report VL53_RANGE_CLOSE (Some 20%nat) 600 0 7)
                 (_overRunRep zeroed)))
    as (s' & log & me' & H1 & H2 & H3 & _ & H4 & _).
  - apply (state_after_inv flood_then_drop flood_then_drop_ok).
  - simpl. repeat split; compute_done.
  - vm_compute; reflexivity.
  - simpl. lia.
  - compute_done.
  - exists s', log, me'. split; [exact H1|]. split; [exact H2|]. split; [exact H3|exact H4].
Defined.

(** ** Delivery *)

Lemma step_retrieve rdp w t s p sl q :
  queue_ok s →
  _reportQueue s = (p, sl) :: q →
  ∃ owner s',
    heap s !! p = Some owner ∧
    tryGetReport rdp w t s = Some (true, copied (get_slot sl owner) t, s') ∧
    step (Retrieve rdp w t) s = Some (s', [Got (p, sl) (copied (get_slot sl owner) t)]) ∧
    _reportQueue s' = q ∧
    heap s' !! p = Some (set_slot sl (released (get_slot sl owner) t) owner).
Proof.
  intros Hok Hq.
  destruct (queue_ok_live s (p, sl) Hok) as (owner & Ho & _).
  { rewrite Hq. apply list_elem_of_here. }
  simpl in Ho. eexists owner, _. split; [done|].
  simpl. rewrite (tryGetReport_cons rdp w t s p sl q owner Hq Ho), Hq. simpl.
  split; [done|]. split; [done|]. split; [done|]. apply lookup_insert_eq.
Qed.

(** The consumer takes as many reports as [cs] has retrievals, no more
    than the queue holds: it gets the pointers at the head of the queue
    and leaves alone every record none of these pointers designates. *)
Lemma drain cs :
  Forall is_retrieval cs →
  ∀ s ps,
    inv s ps →
    (length cs ≤ length (_reportQueue s))%nat →
    ∃ s' log,
      run cs s = Some (s', log) ∧
      inv s' ps ∧
      _reportQueue s' = drop (length cs) (_reportQueue s) ∧
      gots log = take (length cs) (_reportQueue s) ∧
      ∀ p sl me, (p, sl) ∉ take (length cs) (_reportQueue s) →
                 heap s !! p = Some me →
                 ∃ me', heap s' !! p = Some me' ∧ get_slot sl me' = get_slot sl me.
Proof.
  induction 1 as [|c cs Hc _ IH]; intros s ps Hinv Hlen.
  - exists s, []. simpl. rewrite drop_0, take_0. eauto 10.
  - destruct c as [| | |rdp w t]; try done.
    destruct (_reportQueue s) as [|[a sl0] q] eqn:Hq; simpl in Hlen; [lia|].
    destruct (step_retrieve rdp w t s a sl0 q (proj1 (proj2 Hinv)) Hq)
      as (owner & s1 & Ho & _ & Hstep & Hq1 & _).
    destruct (step_inv (Retrieve rdp w t) s ps Hinv I) as (s1' & e1 & Hstep' & Hinv1 & _).
    rewrite Hstep in Hstep'. injection Hstep' as <- <-.
    simpl in Hinv1. rewrite app_nil_r in Hinv1.
    destruct (IH s1 ps Hinv1) as (s' & log & Hrun & Hinv' & Hq' & Hg & Hkeep).
    { rewrite Hq1. lia. }
    exists s', (Got (a, sl0) (copied (get_slot sl0 owner) t) :: log).
    cbn [run]. rewrite Hstep. simpl. rewrite Hrun. simpl.
    split; [done|]. split; [done|]. rewrite Hq1 in Hq', Hg, Hkeep.
    split; [done|]. split; [by rewrite Hg|].
    intros p sl me Hnotin Hp.
    apply not_elem_of_cons in Hnotin as [Hne Hnotin].
    destruct (step_slot _ s s1 _ p me sl Hstep Hp)
      as (me1 & Hme1 & _ & [[_ Hsame]|[(k & i & t0 & Hsub & _)|(rdp0 & w0 & t0 & _ & Hhd & _)]]).
    + destruct (Hkeep p sl me1 Hnotin Hme1) as (me' & Hme' & Hsame').
      exists me'. split; [done|]. congruence.
    + discriminate Hsub.
    + rewrite Hq in Hhd. simpl in Hhd. congruence.
Qed.

(** X4. A report submitted by a reporter whose current record is free, into
    a queue with room that holds no pointer to that record, comes out
    intact once the consumer has taken the reports queued before it: the
    retrieval returns the type, the reporter, the information and the time
    of the submission together with the time of the retrieval, and it
    leaves the queue empty and the record free again. *)
Theorem report_round_trip this k i t rdp w t' cs s ps me :
  inv s ps →
  heap s !! this = Some me →
  timeStampIn (_lastRep me) = 0 →
  (this, LastRep) ∉ _reportQueue s →
  (length (_reportQueue s) < Queue.capacity)%nat →
  Forall is_retrieval cs →
  length cs = length (_reportQueue s) →
  ∃ s1 s2 log s3 me3,
    queueReport this k i t s = Some s1 ∧
    run cs s1 = Some (s2, log) ∧
    tryGetReport rdp w t' s2 = Some (true, mk_report k (Some this) t t' i, s3) ∧
    _reportQueue s3 = [] ∧
    heap s3 !! this = Some me3 ∧
    timeStampIn (_lastRep me3) = 0.
Proof.
  intros Hinv Hme Hfree Hnotin Hroom Hcs Hlen.
  assert (Hun : unacknowledged me = false).
  { destruct (unacknowledged me) eqn:E; [|done].
    apply unacknowledged_nonzero in E. done. }
  assert (Hin : this ∈ ps) by (apply Hinv; by rewrite Hme).
  destruct (step_inv (Submit this k i t) s ps Hinv) as (s1 & e1 & Hstep & Hinv1 & _).
  { by split. }
  simpl in Hstep, Hinv1. rewrite app_nil_r in Hinv1. rewrite Hme in Hstep.
  simpl in Hstep. rewrite (queueReport_eq this k i t s me Hme) in Hstep |- *.
  simpl in Hstep. injection Hstep as Hs1 _.
  apply full_false_lt in Hroom.
  assert (Hq1 : _reportQueue s1 = _reportQueue s ++ [(this, LastRep)]).
  { rewrite <- Hs1. simpl. rewrite Hroom. unfold chosen. by rewrite Hun. }
  assert (Hme1 : heap s1 !! this = Some (set_lastRep (fresh_record this k i t) me)).
  { rewrite <- Hs1. simpl. rewrite lookup_insert_eq. by rewrite Hun. }
  destruct (drain cs Hcs s1 ps Hinv1) as (s2 & log & Hrun & Hinv2 & Hq2 & _ & Hkeep).
  { rewrite Hq1, length_app. lia. }
  rewrite Hq1, Hlen in Hq2, Hkeep.
  rewrite drop_app_length in Hq2. rewrite take_app_length in Hkeep.
  destruct (Hkeep this LastRep _ Hnotin Hme1) as (me2 & Hme2 & Hrec).
  simpl in Hrec.
  exists s1, s2, log. rewrite Hs1.
  eexists _, _. split; [done|]. split; [done|].
  rewrite (tryGetReport_cons rdp w t' s2 this LastRep [] me2 Hq2 Hme2).
  simpl. rewrite Hrec. split; [done|]. split; [done|].
  simpl. rewrite lookup_insert_eq. done.
Qed.

Lemma report_round_trip_witness :
  ∃ s1 s2 log s3 me3,
    queueReport 20%nat ROTQ_ROT (-3) 600
      (state_after [New 10%nat zeroed SERVO_REP; New 20%nat stale VL53_REP;
                    Submit 10%nat LOCO_STOP 42 100]) = Some s1 ∧
    run [Retrieve (_lastRep zeroed) 0 700] s1 = Some (s2, log) ∧
    tryGetReport (_lastRep zeroed) 5 800 s2
      = Some (true, mk_report ROTQ_ROT (Some 20%nat) 600 800 (-3), s3) ∧
    _reportQueue s3 = [] ∧
    heap s3 !! 20%nat = Some me3 ∧
    timeStampIn (_lastRep me3) = 0.
Proof.
  apply (report_round_trip 20%nat ROTQ_ROT (-3) 600 (_lastRep zeroed) 5 800
           [Retrieve (_lastRep zeroed) 0 700]
           (state_after [New 10%nat zeroed SERVO_REP; New 20%nat stale VL53_REP;
                         Submit 10%nat LOCO_STOP 42 100])
           [10%nat; 20%nat]
           (mk_Reporter None 2 (mk_report SET_AUTO (Some 5%nat) 0 0 9)
              (_overRunRep stale))).
  - apply (state_after_inv [New 10%nat zeroed SERVO_REP; New 20%nat stale VL53_REP;
                            Submit 10%nat LOCO_STOP 42 100]).
    simpl. repeat split; compute_done.
  - vm_compute; reflexivity.
  - reflexivity.
  - compute_done.
  - vm_compute. lia.
  - repeat constructor.
  - vm_compute; reflexivity.
Defined.

Lemma submit_state this k i t s ps me :
  inv s ps →
  heap s !! this = Some me →
  ∃ s1,
    queueReport this k i t s = Some s1 ∧
    inv s1 ps ∧
    heap s1 !! this = Some (if unacknowledged me
                            then set_overRunRep (overrun_record this k t) me
                            else set_lastRep (fresh_record this k i t) me) ∧
    _reportQueue s1 = (if full (_reportQueue s) then _reportQueue s
                       else _reportQueue s ++ [(this, chosen me)]) ∧
    _overRunCount s1 = (if unacknowledged me then incr_uint16 (_overRunCount s)
                        else _overRunCount s) ∧
    _queueFullCount s1 = (if full (_reportQueue s) then incr_uint16 (_queueFullCount s)
                          else _queueFullCount s).
Proof.
  intros Hinv Hme.
  assert (Hin : this ∈ ps) by (apply Hinv; by rewrite Hme).
  destruct (step_inv (Submit this k i t) s ps Hinv) as (s1 & e1 & Hstep & Hinv1 & _).
  { by split. }
  simpl in Hstep, Hinv1. rewrite app_nil_r in Hinv1. rewrite Hme in Hstep.
  simpl in Hstep. rewrite (queueReport_eq this k i t s me Hme) in Hstep |- *.
  simpl in Hstep. injection Hstep as Hs1 _. rewrite Hs1.
  exists s1. split; [done|]. split; [done|]. rewrite <- Hs1. simpl.
  rewrite lookup_insert_eq. done.
Qed.

(** X5. Two overruns of one reporter, with room in the queue, leave two
    pointers to its one overrun record.  Once the consumer has taken the
    reports queued before them, both retrievals return the type of the
    second overrunning submission; the type of the first is lost, and the
    second copy carries a time of submission of 0 because the first
    retrieval has cleared it. *)
Theorem overrun_reports_carry_latest
    this kA iA tA kB iB tB rdp w t1 rdp' w' t2 cs s ps me :
  inv s ps →
  heap s !! this = Some me →
  timeStampIn (_lastRep me) ≠ 0 →
  (this, OverRunRep) ∉ _reportQueue s →
  (length (_reportQueue s) + 2 ≤ Queue.capacity)%nat →
  Forall is_retrieval cs →
  length cs = length (_reportQueue s) →
  ∃ s1 s2 s3 log s4 s5,
    queueReport this kA iA tA s = Some s1 ∧
    queueReport this kB iB tB s1 = Some s2 ∧
    run cs s2 = Some (s3, log) ∧
    tryGetReport rdp w t1 s3
      = Some (true, mk_report REPORT_OVERRUN (Some this) tB t1 (EventType_value kB), s4) ∧
    tryGetReport rdp' w' t2 s4
      = Some (true, mk_report REPORT_OVERRUN (Some this) 0 t2 (EventType_value kB), s5).
Proof.
  intros Hinv Hme Hne Hnotin Hroom Hcs Hlen.
  apply unacknowledged_nonzero in Hne.
  destruct (submit_state this kA iA tA s ps me Hinv Hme)
    as (s1 & Hs1 & Hinv1 & Hme1 & Hq1 & _).
  rewrite Hne in Hme1. unfold chosen in Hq1. rewrite Hne in Hq1.
  rewrite (proj2 (full_false_lt _)) in Hq1 by lia.
  destruct (submit_state this kB iB tB s1 ps _ Hinv1 Hme1)
    as (s2 & Hs2 & Hinv2 & Hme2 & Hq2 & _).
  assert (Hun1 : unacknowledged (set_overRunRep (overrun_record this kA tA) me) = true)
    by done.
  rewrite Hun1 in Hme2. unfold chosen in Hq2. rewrite Hun1 in Hq2.
  rewrite (proj2 (full_false_lt _)) in Hq2 by (rewrite Hq1, length_app; simpl; lia).
  rewrite Hq1, <- app_assoc in Hq2. simpl in Hq2.
  destruct (drain cs Hcs s2 ps Hinv2) as (s3 & log & Hrun & Hinv3 & Hq3 & _ & Hkeep).
  { rewrite Hq2, length_app. lia. }
  rewrite Hq2, Hlen in Hq3, Hkeep.
  rewrite drop_app_length in Hq3. rewrite take_app_length in Hkeep.
  destruct (Hkeep this OverRunRep _ Hnotin Hme2) as (me3 & Hme3 & Hrec).
  simpl in Hrec.
  exists s1, s2, s3, log. eexists _, _.
  split; [done|]. split; [done|]. split; [done|].
  rewrite (tryGetReport_cons rdp w t1 s3 this OverRunRep _ me3 Hq3 Hme3).
  simpl. rewrite Hrec. split; [done|].
  erewrite tryGetReport_cons; [|simpl; reflexivity|simpl; apply lookup_insert_eq].
  done.
Qed.

Lemma overrun_reports_carry_latest_witness :
  ∃ s1 s2 s3 log s4 s5,
    queueReport 10%nat VL53_ERR 9 200
      (state_after [New 10%nat zeroed SERVO_REP; Submit 10%nat LOCO_STOP 42 100]) = Some s1 ∧
    queueReport 10%nat ROTQ_ROT 3 250 s1 = Some s2 ∧
    run [Retrieve (_lastRep zeroed) 0 300] s2 = Some (s3, log) ∧
    tryGetReport (_lastRep zeroed) 0 400 s3
      = Some (true, mk_report REPORT_OVERRUN (Some 10%nat) 250 400 26, s4) ∧
    tryGetReport (_lastRep zeroed) 0 500 s4
      = Some (true, mk_report REPORT_OVERRUN (Some 10%nat) 0 500 26, s5).
Proof.
  apply (overrun_reports_carry_latest 10%nat VL53_ERR 9 200 ROTQ_ROT 3 250
           (_lastRep zeroed) 0 400 (_lastRep zeroed) 0 500
           [Retrieve (_lastRep zeroed) 0 300]
           (state_after [New 10%nat zeroed SERVO_REP; Submit 10%nat LOCO_STOP 42 100])
           [10%nat]
           (mk_Reporter None 1 (mk_report LOCO_STOP (Some 10%nat) 100 0 42)
              (_overRunRep zeroed))).
  - apply (state_after_inv [New 10%nat zeroed SERVO_REP; Submit 10%nat LOCO_STOP 42 100]).
    simpl. repeat split; compute_done.
  - vm_compute; reflexivity.
  - simpl. lia.
  - compute_done.
  - vm_compute. lia.
  - repeat constructor.
  - vm_compute; reflexivity.
Defined.



(** ** Invariants of whole runs *)

(** X7. In every state a program reaches the queue holds at most 16
    pointers, and each of them points to a record of a live reporter whose
    source field names that reporter. *)
Theorem queue_always_in_order cs :
  calls_ok [] cs →
  ∃ s log,
    run cs init = Some (s, log) ∧
    (length (_reportQueue s) ≤ Queue.capacity)%nat ∧
    ∀ p sl, (p, sl) ∈ _reportQueue s →
            ∃ owner, heap s !! p = Some owner ∧ source (get_slot sl owner) = Some p.
Proof.
  intros Hok.
  destruct (run_inv cs init [] inv_init Hok) as (s & log & Hrun & (_ & Hq & _) & _).
  exists s, log. split; [done|]. split; [apply Hq|].
  intros p sl Hin. apply (queue_ok_live s (p, sl) Hq Hin).
Qed.

Lemma queue_always_in_order_witness :
  calls_ok [] flood_then_drop ∧
  ∃ s log,
    run flood_then_drop init = Some (s, log) ∧
    (length (_reportQueue s) ≤ Queue.capacity)%nat.
Proof.
  split; [exact flood_then_drop_ok|].
  destruct (queue_always_in_order flood_then_drop flood_then_drop_ok)
    as (s & log & H1 & H2 & _).
  exists s, log. split; [exact H1|exact H2].
Defined.

Lemma submitted_cons c cs : submitted (c :: cs) = (submitted [c] + submitted cs)%nat.
Proof. unfold submitted. by destruct c. Qed.

Lemma step_account c s s' ev :
  step c s = Some (s', ev) →
  _queueFullCount s < 2 ^ 16 →
  (length (puts ev) ≤ submitted [c])%nat ∧
  _queueFullCount s' < 2 ^ 16 ∧
  _queueFullCount s' =
    (_queueFullCount s + N.of_nat (submitted [c] - length (puts ev))) mod 2 ^ 16.
Proof.
  intros Hstep Hc.
  assert (Hsame : ∀ n, n < 2 ^ 16 → n = (n + N.of_nat 0) mod 2 ^ 16).
  { intros n Hn. simpl. rewrite N.add_0_r. symmetry. by apply N.mod_small. }
  destruct c as [this raw ty|this raw ty id|this k i t|rdp w t];
    unfold submitted; simpl in Hstep |- *.
  - destruct (Reporter_ctor this raw ty s) as [s1|] eqn:Hctor; simpl in Hstep; [|done].
    injection Hstep as <- <-.
    destruct (constructors_counters this raw ty s s1) as [_ Hf]; [eauto|].
    simpl. rewrite Hf. split; [lia|]. split; [done|]. by apply Hsame.
  - destruct (Reporter_ctor_id this raw ty id s) as [s1|] eqn:Hctor; simpl in Hstep; [|done].
    injection Hstep as <- <-.
    destruct (constructors_counters this raw ty s s1) as [_ Hf]; [eauto|].
    simpl. rewrite Hf. split; [lia|]. split; [done|]. by apply Hsame.
  - destruct (heap s !! this) as [me|] eqn:Hme; simpl in Hstep; [|done].
    rewrite (queueReport_eq this k i t s me Hme) in Hstep. simpl in Hstep.
    injection Hstep as <- <-. simpl.
    destruct (full (_reportQueue s)); simpl.
    + split; [lia|]. unfold incr_uint16. split; [|done].
      apply N.mod_upper_bound. done.
    + split; [lia|]. split; [done|]. by apply Hsame.
  - assert (Hcount : _queueFullCount s' = _queueFullCount s ∧ puts ev = []).
    { destruct (_reportQueue s) as [|[a sl] q] eqn:Hq.
      - rewrite (tryGetReport_nil rdp w t s Hq) in Hstep. simpl in Hstep.
        by injection Hstep as <- <-.
      - unfold tryGetReport in Hstep. rewrite Hq in Hstep. simpl in Hstep.
        destruct (heap s !! a); simpl in Hstep; [|done].
        by injection Hstep as <- <-. }
    destruct Hcount as [-> ->]. simpl. split; [lia|]. split; [done|]. by apply Hsame.
Qed.

Lemma run_account cs :
  ∀ s s' log,
    run cs s = Some (s', log) →
    _queueFullCount s < 2 ^ 16 →
    (length (puts log) ≤ submitted cs)%nat ∧
    _queueFullCount s' < 2 ^ 16 ∧
    _queueFullCount s' =
      (_queueFullCount s + N.of_nat (submitted cs - length (puts log))) mod 2 ^ 16.
Proof.
  induction cs as [|c cs IH]; intros s s' log Hrun Hc.
  - simpl in Hrun. injection Hrun as <- <-. simpl.
    split; [done|]. split; [done|]. rewrite N.add_0_r. symmetry. by apply N.mod_small.
  - apply run_cons_inv in Hrun as (s1 & e1 & e2 & Hstep & Hrun & ->).
    destruct (step_account c s s1 e1 Hstep Hc) as (Hle1 & Hc1 & Heq1).
    destruct (IH s1 s' e2 Hrun Hc1) as (Hle2 & Hc2 & Heq2).
    rewrite submitted_cons. unfold puts in *. rewrite omap_app, length_app.
    split; [lia|]. split; [done|].
    rewrite Heq2, Heq1, N.Div0.add_mod_idemp_l. f_equal. lia.
Qed.

(** X8. Every submission is either queued or counted: along any run from the
    initial state the full counter is the number of submissions that put
    no pointer, modulo 2^16, and the queue holds exactly the pointers put
    and not yet got. *)
Theorem submissions_queued_or_counted cs :
  calls_ok [] cs →
  ∃ s log,
    run cs init = Some (s, log) ∧
    (length (puts log) ≤ submitted cs)%nat ∧
    _queueFullCount s = N.of_nat (submitted cs - length (puts log)) mod 2 ^ 16 ∧
    (length (_reportQueue s) + length (gots log) = length (puts log))%nat.
Proof.
  intros Hok.
  destruct (run_inv cs init [] inv_init Hok) as (s & log & Hrun & _ & Hq & _).
  exists s, log. split; [done|].
  destruct (run_account cs init s log Hrun) as (Hle & _ & Heq); [done|].
  split; [done|]. split; [by rewrite Heq|].
  simpl in Hq. rewrite Hq, length_app. lia.
Qed.

Lemma submissions_queued_or_counted_witness :
  calls_ok [] flood_then_drop ∧
  ∃ s log,
    run flood_then_drop init = Some (s, log) ∧
    _queueFullCount s = N.of_nat (submitted flood_then_drop - length (puts log)) mod 2 ^ 16.
Proof.
  split; [exact flood_then_drop_ok|].
  destruct (submissions_queued_or_counted flood_then_drop flood_then_drop_ok)
    as (s & log & H1 & _ & H2 & _).
  exists s, log. split; [exact H1|exact H2].
Defined.

(** ** Identifiers *)

Lemma run_ids cs :
  ∀ s s' log p me,
    run cs s = Some (s', log) →
    heap s !! p = Some me →
    ∃ me', heap s' !! p = Some me' ∧ _id me' = _id me.
Proof.
  induction cs as [|c cs IH]; intros s s' log p me Hrun Hp.
  - simpl in Hrun. injection Hrun as <- <-. eauto.
  - apply run_cons_inv in Hrun as (s1 & e1 & e2 & Hstep & Hrun & ->).
    destruct (step_slot c s s1 e1 p me LastRep Hstep Hp) as (me1 & Hme1 & Hid1 & _).
    destruct (IH s1 s' e2 p me1 Hrun Hme1) as (me' & Hme' & Hid').
    exists me'. split; [done|]. congruence.
Qed.

(** X9. The id of a reporter is fixed for good at its construction:
    whatever admissible calls follow, [getId] keeps returning it. *)
Theorem getId_stable cs s ps :
  inv s ps →
  calls_ok ps cs →
  ∃ s' log,
    run cs s = Some (s', log) ∧
    ∀ p id, getId p s = Some id → getId p s' = Some id.
Proof.
  intros Hinv Hok.
  destruct (run_inv cs s ps Hinv Hok) as (s' & log & Hrun & _).
  exists s', log. split; [done|]. intros p id. unfold getId.
  destruct (heap s !! p) as [me|] eqn:Hp; simpl; [|done]. intros [= <-].
  destruct (run_ids cs s s' log p me Hrun Hp) as (me' & Hme' & Hid').
  rewrite Hme'. simpl. by rewrite Hid'.
Qed.

Lemma getId_stable_witness :
  ∃ s' log,
    run [Submit 10%nat VL53_ERR 9 200; New 30%nat stale BLE_REP;
         Retrieve (_lastRep zeroed) 0 300]
        (state_after [New 10%nat zeroed SERVO_REP; NewId 20%nat stale VL53_REP 200])
      = Some (s', log) ∧
    getId 20%nat s' = Some 200.
Proof.
  destruct (getId_stable
              [Submit 10%nat VL53_ERR 9 200; New 30%nat stale BLE_REP;
               Retrieve (_lastRep zeroed) 0 300]
              (state_after [New 10%nat zeroed SERVO_REP; NewId 20%nat stale VL53_REP 200])
              [10%nat; 20%nat])
    as (s' & log & H1 & H2).
  - apply (state_after_inv [New 10%nat zeroed SERVO_REP; NewId 20%nat stale VL53_REP 200]).
    simpl. repeat split; compute_done.
  - simpl. repeat split; compute_done.
  - exists s', log. split; [exact H1|]. apply H2. vm_compute; reflexivity.
Defined.

Lemma autos_cons c cs :
  autos (c :: cs) = ((if decide (c.2 = None) then 1 else 0) + autos cs)%nat.
Proof. unfold autos. rewrite filter_cons. by case_decide. Qed.

Lemma construct_step c s ps :
  inv s ps →
  (built c ∉ ps) →
  _lastId s < 256 →
  ∃ s1,
    step (construct c) s = Some (s1, []) ∧
    inv s1 (ps ++ [built c]) ∧
    _lastId s1 < 256 ∧
    _lastId s1 = (_lastId s + N.of_nat (autos [c])) mod 256 ∧
    getId (built c) s1 = Some (match c.2 with
                               | Some id => id
                               | None => (_lastId s + 1) mod 256
                               end).
Proof.
  intros Hinv Hnotin Hlast. destruct c as [[[this raw] ty] oid].
  unfold built in *. simpl in Hnotin |- *.
  pose proof (inv_fresh s ps this Hinv Hnotin) as Hfresh.
  destruct (step_inv (construct (this, raw, ty, oid)) s ps Hinv) as (s1 & e1 & Hstep & Hinv1 & _).
  { destruct oid; by split. }
  assert (Hcons : constructed [construct (this, raw, ty, oid)] = [this]) by (by destruct oid).
  rewrite Hcons in Hinv1. exists s1.
  destruct oid as [id|]; simpl in Hstep |- *.
  - rewrite Reporter_ctor_id_eq in Hstep by done.
    destruct (enchain this s) as [s0|] eqn:Hs0; simpl in Hstep; [|done].
    injection Hstep as <- <-.
    destruct (enchain_frame this s s0 Hs0) as (_ & Hid0 & _).
    rewrite Reporter_ctor_id_eq, Hs0 by done. simpl.
    split; [done|]. split; [done|]. rewrite Hid0. split; [done|].
    split; [|unfold getId; simpl; by rewrite lookup_insert_eq].
    unfold autos. simpl. rewrite N.add_0_r. symmetry. by apply N.mod_small.
  - rewrite Reporter_ctor_eq in Hstep by done.
    destruct (enchain this s) as [s0|] eqn:Hs0; simpl in Hstep; [|done].
    injection Hstep as <- <-.
    rewrite Reporter_ctor_eq, Hs0 by done. simpl.
    split; [done|]. split; [done|]. unfold incr_byte. change (2 ^ 8) with 256.
    split; [by apply N.mod_upper_bound|]. split; [done|].
    unfold getId. simpl. by rewrite lookup_insert_eq.
Qed.

Lemma construct_ids cs :
  ∀ s ps,
    inv s ps →
    NoDup (ps ++ (built <$> cs)) →
    _lastId s < 256 →
    ∃ s' log,
      run (construct <$> cs) s = Some (s', log) ∧
      _lastId s' = (_lastId s + N.of_nat (autos cs)) mod 256 ∧
      ∀ (i : nat) c, cs !! i = Some c →
        getId (built c) s' =
          Some (match c.2 with
                | Some id => id
                | None => (_lastId s + N.of_nat (autos (take (S i) cs))) mod 256
                end).
Proof.
  induction cs as [|c cs IH]; intros s ps Hinv Hnd Hlast.
  - exists s, []. split; [done|]. split.
    + unfold autos. simpl. rewrite N.add_0_r. symmetry. by apply N.mod_small.
    + intros i c Hi. by rewrite lookup_nil in Hi.
  - cbn [fmap list_fmap] in Hnd |- *.
    assert (Hnotin : built c ∉ ps).
    { apply NoDup_app in Hnd as (_ & Hdisj & _). intros Hin.
      apply (Hdisj _ Hin). apply list_elem_of_here. }
    destruct (construct_step c s ps Hinv Hnotin Hlast)
      as (s1 & Hstep & Hinv1 & Hlast1 & Hid1 & Hget1).
    destruct (IH s1 (ps ++ [built c]) Hinv1) as (s' & log & Hrun & Hid' & Hget'); [|done|].
    { by rewrite <- app_assoc. }
    exists s', log. cbn [run]. rewrite Hstep. simpl.
    cbn [fmap list_fmap] in Hrun. rewrite Hrun. simpl.
    split; [done|]. split.
    + rewrite Hid', Hid1, N.Div0.add_mod_idemp_l, (autos_cons c cs).
      unfold autos at 1. simpl. rewrite filter_cons, filter_nil.
      f_equal. case_decide; simpl; lia.
    + intros [|i] c' Hi; simpl in Hi.
      * injection Hi as <-.
        unfold getId in Hget1 |- *.
        destruct (heap s1 !! built c) as [me1|] eqn:Hme1; simpl in Hget1; [|done].
        destruct (run_ids _ s1 s' log (built c) me1 Hrun Hme1) as (me' & Hme' & Hid2).
        rewrite Hme'. simpl. rewrite Hid2, Hget1. f_equal. destruct (c.2) eqn:Hc2; [done|].
        rewrite take_0. unfold autos. rewrite filter_cons, filter_nil.
        rewrite decide_True by done. done.
      * rewrite (Hget' i c' Hi). f_equal. destruct (c'.2); [done|].
        rewrite Hid1, N.Div0.add_mod_idemp_l.
        replace (take (S (S i)) (c :: cs)) with (c :: take (S i) cs) by done.
        rewrite (autos_cons c (take (S i) cs)).
        unfold autos at 1. simpl. rewrite filter_cons, filter_nil.
        f_equal. case_decide; simpl; lia.
Qed.

(** X10. The class hands out ids by counting: after constructing distinct
    reporters from the initial state, a reporter constructed without an id
    has as its id the number of such constructions up to and including
    its own, modulo 256, however many constructions with an id given by
    the caller lie in between; a reporter constructed with an id has that
    id. *)
Theorem ids_assigned_in_sequence (cs : list construction) :
  NoDup (built <$> cs) →
  ∃ s log,
    run (construct <$> cs) init = Some (s, log) ∧
    _lastId s = N.of_nat (autos cs) mod 256 ∧
    ∀ (i : nat) c, cs !! i = Some c →
      getId (built c) s =
        Some (match c.2 with
              | Some id => id
              | None => N.of_nat (autos (take (S i) cs)) mod 256
              end).
Proof.
  intros Hnd.
  destruct (construct_ids cs init [] inv_init Hnd) as (s & log & Hrun & Hid & Hget); [done|].
  exists s, log. split; [done|]. split; [exact Hid|]. exact Hget.
Qed.

Lemma ids_assigned_in_sequence_witness :
  ∃ s log,
    run (construct <$> [(10%nat, stale, SERVO_REP, None);
                        (20%nat, stale, VL53_REP, Some 200);
                        (30%nat, zeroed, BLE_REP, None)]) init = Some (s, log) ∧
    getId 30%nat s = Some 2.
Proof.
  destruct (ids_assigned_in_sequence [(10%nat, stale, SERVO_REP, None);
                                      (20%nat, stale, VL53_REP, Some 200);
                                      (30%nat, zeroed, BLE_REP, None)])
    as (s & log & H1 & _ & H2).
  - compute_done.
  - exists s, log. split; [exact H1|].
    exact (H2 2%nat (30%nat, zeroed, BLE_REP, None) eq_refl).
Defined.

Lemma autos_app l1 l2 : autos (l1 ++ l2) = (autos l1 + autos l2)%nat.
Proof. unfold autos. by rewrite filter_app, length_app. Qed.

Lemma autos_take_le (cs : list construction) n m :
  (n ≤ m)%nat → (autos (take n cs) ≤ autos (take m cs))%nat.
Proof.
  intros Hnm. rewrite <- (take_drop n (take m cs)), autos_app.
  rewrite take_take, Nat.min_l by done. lia.
Qed.

Lemma autos_take_auto (cs : list construction) i c :
  cs !! i = Some c → c.2 = None →
  autos (take (S i) cs) = S (autos (take i cs)).
Proof.
  intros Hi Hc. rewrite (take_S_r cs i c Hi), autos_app.
  unfold autos at 2. rewrite filter_cons, filter_nil, decide_True by done.
  simpl. lia.
Qed.

(** X11. As long as no more than 256 reporters are constructed without an id,
    the ids the class assigns to them are pairwise different. *)
Theorem assigned_ids_distinct (cs : list construction) :
  NoDup (built <$> cs) →
  (autos cs ≤ 256)%nat →
  ∃ s log,
    run (construct <$> cs) init = Some (s, log) ∧
    ∀ (i j : nat) ci cj,
      cs !! i = Some ci → cs !! j = Some cj →
      ci.2 = None → cj.2 = None → i ≠ j →
      getId (built ci) s ≠ getId (built cj) s.
Proof.
  intros Hnd Hmax.
  destruct (construct_ids cs init [] inv_init Hnd) as (s & log & Hrun & _ & Hget); [done|].
  exists s, log. split; [done|].
  assert (Hlt : ∀ (i j : nat) ci cj,
            cs !! i = Some ci → cs !! j = Some cj → ci.2 = None → cj.2 = None →
            (i < j)%nat →
            getId (built ci) s ≠ getId (built cj) s).
  { intros i j ci cj Hi Hj Hci Hcj Hij.
    rewrite (Hget i ci Hi), (Hget j cj Hj), Hci, Hcj.
    change (_lastId init) with 0. rewrite !N.add_0_l.
    pose proof (autos_take_auto cs i ci Hi Hci) as Hai.
    pose proof (autos_take_auto cs j cj Hj Hcj) as Haj.
    pose proof (autos_take_le cs (S i) j ltac:(lia)) as Hmono.
    pose proof (lookup_lt_Some cs j cj Hj) as Hjlen.
    pose proof (autos_take_le cs (S j) (length cs) ltac:(lia)) as Htop.
    rewrite firstn_all in Htop.
    set (a := autos (take (S i) cs)) in *. set (b := autos (take (S j) cs)) in *.
    intros [= Heq].
    assert (Ha : N.of_nat a mod 256 = N.of_nat a) by (apply N.mod_small; lia).
    rewrite Ha in Heq.
    destruct (decide (b = 256%nat)) as [Hb|Hb].
    - rewrite Hb in Heq. change (N.of_nat 256 mod 256) with 0 in Heq. lia.
    - rewrite N.mod_small in Heq by lia. lia. }
  intros i j ci cj Hi Hj Hci Hcj Hne.
  destruct (Nat.lt_total i j) as [Hij|[Hij|Hij]]; [by eapply Hlt| done |].
  intros Heq. symmetry in Heq. revert Heq. by eapply Hlt.
Qed.

Lemma assigned_ids_distinct_witness :
  ∃ s log,
    run (construct <$> [(10%nat, stale, SERVO_REP, None);
                        (20%nat, stale, VL53_REP, Some 200);
                        (30%nat, zeroed, BLE_REP, None)]) init = Some (s, log) ∧
    getId 10%nat s ≠ getId 30%nat s.
Proof.
  destruct (assigned_ids_distinct [(10%nat, stale, SERVO_REP, None);
                                   (20%nat, stale, VL53_REP, Some 200);
                                   (30%nat, zeroed, BLE_REP, None)])
    as (s & log & H1 & H2).
  - compute_done.
  - vm_compute. lia.
  - exists s, log. split; [exact H1|].
    apply (H2 0%nat 2%nat (10%nat, stale, SERVO_REP, None) (30%nat, zeroed, BLE_REP, None));
      [reflexivity | reflexivity | reflexivity | reflexivity | lia].
Defined.

(** ** The chain over whole runs *)

(** X12. The chain outlives the traffic: from a state that satisfies the
    invariant with chain [ps], after any admissible calls the traversal
    from [getFirstReporter] visits [ps] followed by the reporters
    constructed since, in the order of construction; submissions and
    retrievals never change a link. *)
Theorem chain_survives_traffic cs s ps :
  inv s ps →
  calls_ok ps cs →
  ∃ s' log,
    run cs s = Some (s', log) ∧
    ∀ fuel, (length (ps ++ constructed cs) ≤ fuel)%nat →
            traverse fuel (getFirstReporter s') s' = Some (ps ++ constructed cs).
Proof.
  intros Hinv Hok.
  destruct (run_inv cs s ps Hinv Hok) as (s' & log & Hrun & (Hreg & _) & _).
  exists s', log. split; [done|]. intros fuel Hfuel. by apply traverse_first.
Qed.

Lemma chain_survives_traffic_witness :
  ∃ s' log,
    run [Submit 10%nat VL53_ERR 9 200; New 30%nat stale BLE_REP;
         Retrieve (_lastRep zeroed) 0 300; Submit 30%nat ROTQ_ROT 1 400]
        (state_after [New 10%nat zeroed SERVO_REP; NewId 20%nat stale VL53_REP 200])
      = Some (s', log) ∧
    traverse 5 (getFirstReporter s') s' = Some [10%nat; 20%nat; 30%nat].
Proof.
  destruct (chain_survives_traffic
              [Submit 10%nat VL53_ERR 9 200; New 30%nat stale BLE_REP;
               Retrieve (_lastRep zeroed) 0 300; Submit 30%nat ROTQ_ROT 1 400]
              (state_after [New 10%nat zeroed SERVO_REP; NewId 20%nat stale VL53_REP 200])
              [10%nat; 20%nat])
    as (s' & log & H1 & H2).
  - apply (state_after_inv [New 10%nat zeroed SERVO_REP; NewId 20%nat stale VL53_REP 200]).
    simpl. repeat split; compute_done.
  - simpl. repeat split; compute_done.
  - exists s', log. split; [exact H1|]. apply (H2 5%nat). simpl. lia.
Defined.

(** * Retrieval over whole runs and in time *)

(** ** Order of retrieval *)

Lemma run_app_inv cs1 :
  ∀ cs2 s s' log,
    run (cs1 ++ cs2) s = Some (s', log) →
    ∃ s1 log1 log2,
      run cs1 s = Some (s1, log1) ∧ run cs2 s1 = Some (s', log2) ∧ log = log1 ++ log2.
Proof.
  induction cs1 as [|c cs1 IH]; intros cs2 s s' log Hrun.
  - exists s, [], log. done.
  - rewrite <- app_comm_cons in Hrun.
    apply run_cons_inv in Hrun as (s0 & e0 & e & Hstep & Hrun & ->).
    destruct (IH cs2 s0 s' e Hrun) as (s1 & log1 & log2 & Hrun1 & Hrun2 & ->).
    exists s1, (e0 ++ log1), log2. cbn [run]. rewrite Hstep. simpl. rewrite Hrun1. simpl.
    split; [done|]. split; [done|]. by rewrite app_assoc.
Qed.

Lemma calls_ok_app cs1 :
  ∀ ps cs2,
    calls_ok ps (cs1 ++ cs2) →
    calls_ok ps cs1 ∧ calls_ok (ps ++ constructed cs1) cs2.
Proof.
  induction cs1 as [|c cs1 IH]; intros ps cs2 Hok.
  - simpl. by rewrite app_nil_r.
  - rewrite <- app_comm_cons in Hok. apply calls_ok_cons in Hok as [Hc Hrest].
    destruct (IH _ _ Hrest) as [H1 H2].
    split; [by apply calls_ok_cons|].
    by rewrite constructed_cons, app_assoc.
Qed.

Lemma gots_no_retrieval cs :
  Forall (λ c, ¬ is_retrieval c) cs →
  ∀ s s' log, run cs s = Some (s', log) → gots log = [].
Proof.
  induction 1 as [|c cs Hc _ IH]; intros s s' log Hrun.
  - simpl in Hrun. by injection Hrun as <- <-.
  - apply run_cons_inv in Hrun as (s1 & e1 & e2 & Hstep & Hrun & ->).
    unfold gots. rewrite omap_app. fold (gots e1). fold (gots e2).
    rewrite (IH s1 s' e2 Hrun), app_nil_r.
    destruct (step_queue c s s1 e1 Hstep) as (_ & _ & [Hnone|(rp & Hhd & Hg)]); [done|].
    destruct c as [| | |rdp w t]; simpl in Hstep.
    + destruct (Reporter_ctor this raw type s); simpl in Hstep; [|done].
      injection Hstep as _ <-. done.
    + destruct (Reporter_ctor_id this raw type id s); simpl in Hstep; [|done].
      injection Hstep as _ <-. done.
    + destruct (heap s !! this); simpl in Hstep; [|done].
      destruct (queueReport this repType' info' micros s); simpl in Hstep; [|done].
      injection Hstep as _ <-. by destruct (full (_reportQueue s)).
    + exfalso. by apply Hc.
Qed.

(** A run of retrievals gets the pointers at the head of the queue, as
    many as there are retrievals or as the queue holds. *)
Lemma retrievals_take cs :
  Forall is_retrieval cs →
  ∀ s ps,
    inv s ps →
    ∃ s' log, run cs s = Some (s', log) ∧
              gots log = take (length cs) (_reportQueue s).
Proof.
  induction 1 as [|c cs Hc _ IH]; intros s ps Hinv.
  - exists s, []. by rewrite take_0.
  - destruct c as [| | |rdp w t]; try done.
    destruct (_reportQueue s) as [|[a sl] q] eqn:Hq.
    + destruct (IH s ps Hinv) as (s' & log & Hrun & Hg).
      exists s', log. cbn [run step]. rewrite (tryGetReport_nil rdp w t s Hq). simpl.
      rewrite Hrun. simpl. split; [done|]. rewrite Hg, Hq. by rewrite !take_nil.
    + destruct (step_retrieve rdp w t s a sl q (proj1 (proj2 Hinv)) Hq)
        as (owner & s1 & _ & _ & Hstep & Hq1 & _).
      destruct (step_inv (Retrieve rdp w t) s ps Hinv I)
        as (s1' & e1 & Hstep' & Hinv1 & _).
      rewrite Hstep in Hstep'. injection Hstep' as <- <-.
      simpl in Hinv1. rewrite app_nil_r in Hinv1.
      destruct (IH s1 ps Hinv1) as (s' & log & Hrun & Hg).
      exists s', (Got (a, sl) (copied (get_slot sl owner) t) :: log).
      cbn [run]. rewrite Hstep. simpl. rewrite Hrun. simpl.
      split; [done|]. by rewrite Hg, Hq1.
Qed.

(** C3. Whatever admissible calls a program makes (constructions,
    submissions by any mix of reporters, retrievals), the run goes through
    and the queue hands the pointers out in the order in which they were
    put:
    - the pointers got, in the order of the retrievals, are the first of
      the pointers that were in the queue followed by the pointers put,
      in the order in which they were put, and the report returned with
      each names the reporter the pointer belongs to;
    - every submission of the run puts the pointer to the record it
      picked at the end of the queue, unless the queue holds 16 pointers;
    - every retrieval of the run returns true when the queue holds a
      pointer, takes the first pointer off the queue and returns the copy
      of the record that pointer designates, and returns false, changing
      nothing, when the queue is empty;
    - so when the run makes its retrievals after its other calls, the
      retrievals get exactly the first pointers of the queue and of those
      put, in order, as many as there are retrievals or pointers. *)
Theorem reports_retrieved_in_insertion_order cs s ps :
  inv s ps →
  calls_ok ps cs →
  ∃ s' log,
    run cs s = Some (s', log) ∧
    _reportQueue s ++ puts log = gots log ++ _reportQueue s' ∧
    (∀ (n : nat) rp, gots log !! n = Some rp →
                     (_reportQueue s ++ puts log) !! n = Some rp) ∧
    Forall2 (λ rp r, source r = Some rp.1) (gots log) (reports log) ∧
    (∀ cs1 this k i t cs2,
       cs = cs1 ++ Submit this k i t :: cs2 →
       ∃ s1 log1 me s2 log2,
         run cs1 s = Some (s1, log1) ∧
         heap s1 !! this = Some me ∧
         queueReport this k i t s1 = Some s2 ∧
         run cs2 s2 = Some (s', log2) ∧
         if full (_reportQueue s1)
         then _reportQueue s2 = _reportQueue s1 ∧ log = log1 ++ log2
         else _reportQueue s2 = _reportQueue s1 ++ [(this, chosen me)] ∧
              log = log1 ++ Put (this, chosen me) :: log2) ∧
    (∀ cs1 rdp w t cs2,
       cs = cs1 ++ Retrieve rdp w t :: cs2 →
       ∃ s1 log1 s2 log2,
         run cs1 s = Some (s1, log1) ∧
         run cs2 s2 = Some (s', log2) ∧
         match _reportQueue s1 with
         | [] => tryGetReport rdp w t s1 = Some (false, rdp, s2) ∧
                 s2 = s1 ∧ log = log1 ++ log2
         | rp :: q =>
             ∃ owner,
               heap s1 !! rp.1 = Some owner ∧
               tryGetReport rdp w t s1
                 = Some (true, copied (get_slot rp.2 owner) t, s2) ∧
               _reportQueue s2 = q ∧
               log = log1 ++ Got rp (copied (get_slot rp.2 owner) t) :: log2
         end) ∧
    (∀ pre rets,
       cs = pre ++ rets →
       Forall (λ c, ¬ is_retrieval c) pre →
       Forall is_retrieval rets →
       gots log = take (length rets) (_reportQueue s ++ puts log)).
Proof.
  intros Hinv Hok.
  destruct (run_inv cs s ps Hinv Hok) as (s' & log & Hrun & _ & Hq & Hsrc).
  exists s', log. split; [done|]. split; [done|].
  split; [|split; [done|split; [|split]]].
  - intros n rp Hn. rewrite Hq. by apply lookup_app_l_Some.
  - intros cs1 this k i t cs2 ->.
    destruct (run_app_inv _ _ _ _ _ Hrun) as (s1 & log1 & log' & Hrun1 & Hrun' & ->).
    apply run_cons_inv in Hrun' as (s2 & e & log2 & Hstep & Hrun2 & ->).
    simpl in Hstep.
    destruct (heap s1 !! this) as [me|] eqn:Hme; simpl in Hstep; [|done].
    rewrite (queueReport_eq this k i t s1 me Hme) in Hstep.
    simpl in Hstep. injection Hstep as Hs2 <-.
    exists s1, log1, me, s2, log2.
    split; [done|]. split; [done|].
    split; [by rewrite (queueReport_eq this k i t s1 me Hme), Hs2|]. split; [done|].
    rewrite <- Hs2. simpl. by destruct (full (_reportQueue s1)).
  - intros cs1 rdp w t cs2 ->.
    destruct (calls_ok_app _ _ _ Hok) as [Hok1 _].
    destruct (run_inv cs1 s ps Hinv Hok1) as (s1 & log1 & Hrun1 & Hinv1 & _).
    destruct (run_app_inv _ _ _ _ _ Hrun) as (s1' & log1' & log' & Hrun1' & Hrun' & ->).
    rewrite Hrun1 in Hrun1'. injection Hrun1' as <- <-.
    apply run_cons_inv in Hrun' as (s2 & e & log2 & Hstep & Hrun2 & ->).
    exists s1, log1, s2, log2. split; [done|]. split; [done|].
    destruct (_reportQueue s1) as [|[a sl] q] eqn:Hq1.
    + cbn [step] in Hstep. rewrite (tryGetReport_nil rdp w t s1 Hq1) in Hstep |- *.
      simpl in Hstep. injection Hstep as <- <-. done.
    + destruct (step_retrieve rdp w t s1 a sl q (proj1 (proj2 Hinv1)) Hq1)
        as (owner & s2' & Ho & Hget & Hstep' & Hq2 & _).
      rewrite Hstep' in Hstep. injection Hstep as <- <-.
      exists owner. done.
  - intros pre rets -> Hpre Hrets.
    destruct (calls_ok_app _ _ _ Hok) as [Hok1 _].
    destruct (run_inv pre s ps Hinv Hok1) as (s1 & log1 & Hrun1 & Hinv1 & Hq1 & _).
    destruct (run_app_inv _ _ _ _ _ Hrun) as (s1' & log1' & log2 & Hrun1' & Hrun2 & ->).
    rewrite Hrun1 in Hrun1'. injection Hrun1' as <- <-.
    destruct (retrievals_take rets Hrets s1 _ Hinv1) as (s2 & log2' & Hrun2' & Hg2).
    rewrite Hrun2 in Hrun2'. injection Hrun2' as <- <-.
    rewrite (gots_no_retrieval pre Hpre s s1 log1 Hrun1), app_nil_l in Hq1.
    unfold gots, puts in *. rewrite !omap_app.
    fold (gots log1). fold (gots log2). fold (puts log1). fold (puts log2).
    rewrite (gots_no_retrieval pre Hpre s s1 log1 Hrun1), app_nil_l.
    rewrite (puts_retrievals rets Hrets s1 s' log2 Hrun2), app_nil_r.
    fold (gots log2) in Hg2. fold (puts log1) in Hq1. by rewrite Hg2, Hq1.
Qed.

Lemma reports_retrieved_in_insertion_order_witness :
  inv init [] ∧
  calls_ok [] sample_calls ∧
  ∃ s' log,
    run sample_calls init = Some (s', log) ∧
    _reportQueue init ++ puts log = gots log ++ _reportQueue s' ∧
    gots log = take 3 (_reportQueue init ++ puts log).
Proof.
  split; [apply inv_init|]. split; [apply sample_calls_ok|].
  destruct (reports_retrieved_in_insertion_order sample_calls init []
              inv_init sample_calls_ok) as (s' & log & Hrun & Hq & _ & _ & _ & _ & Htake).
  exists s', log. split; [exact Hrun|]. split; [exact Hq|].
  apply (Htake (take 5 sample_calls) (drop 5 sample_calls)).
  - reflexivity.
  - repeat constructor; simpl; tauto.
  - repeat constructor.
Defined.

(** ** The wait of the consumer *)






(** The call of the witness: the consumer waits 30 of its 50 units and
    gets the report reporter 20 submits then; the submission due after 80
    is still to come. *)
Example tryGetReport_timed_sample :
  match tryGetReport_timed (_lastRep stale) 50 135
          [mk_arrival 30 20%nat VL53_RANGE_CLOSE 7 100; mk_arrival 80 10%nat ROTQ_ROT 3 180]
          (state_after (sample_calls ++ [Submit 10%nat LOCO_STOP 1 90;
                                         Retrieve (_lastRep zeroed) 0 95])) with
  | Some (Returned found r elapsed _ later) =>
      found = true ∧
      r = mk_report VL53_RANGE_CLOSE (Some 20%nat) 100 135 7 ∧
      elapsed = 30 ∧
      later = [mk_arrival 80 10%nat ROTQ_ROT 3 180]
  | _ => False
  end.
Proof. vm_compute. repeat apply conj; reflexivity. Qed.
